(** * data_utils/vocab.py: the caption vocabulary and its codec

    A shallow embedding of the class [Vocab] of [data_utils/vocab.py]
    (construction from annotation files, [encode_caption],
    [decode_caption], [extend]) and the properties of it that the
    specification states. *)

From stdpp Require Import base list numbers strings.
From Stdlib Require Import Sorting.Sorted Lia.

Local Open Scope Z_scope.

(** ** Python values *)

(** A Python [str] is a sequence of Unicode code points. *)
Abbreviation str := (list N).

(** ASCII literals. *)
Definition lit (x : string) : str :=
  (λ a, Ascii.N_of_ascii a) <$> String.list_ascii_of_string x.

(** [a <= b] on [str]: lexicographic on code points, a proper prefix first. *)
Fixpoint str_leb (a b : str) : bool :=
  match a, b with
  | [], _ => true
  | _ :: _, [] => false
  | x :: a', y :: b' =>
      if (x <? y)%N then true
      else if (x =? y)%N then str_leb a' b' else false
  end.

(** [str.isspace] on one code point: the white space of [str.strip] and
    [str.split] without arguments. *)
Definition isspace (c : N) : bool :=
  ((9 <=? c) && (c <=? 13) || (28 <=? c) && (c <=? 32)
   || (c =? 133) || (c =? 160) || (c =? 5760)
   || (8192 <=? c) && (c <=? 8202) || (c =? 8232) || (c =? 8233)
   || (c =? 8239) || (c =? 8287) || (c =? 12288))%N.

Fixpoint lstrip (x : str) : str :=
  match x with
  | c :: x' => if isspace c then lstrip x' else x
  | [] => []
  end.

Definition rstrip (x : str) : str := reverse (lstrip (reverse x)).

(** [x.strip()] *)
Definition strip (x : str) : str := rstrip (lstrip x).

(** [x.split()]: the maximal runs of characters that are not white space;
    [word] is the run being read, last character first. *)
Fixpoint split_from (word : str) (x : str) : list str :=
  match x with
  | [] => if word is [] then [] else [reverse word]
  | c :: x' =>
      if isspace c
      then (if word is [] then split_from [] x'
            else reverse word :: split_from [] x')
      else split_from (c :: word) x'
  end.

Definition split (x : str) : list str := split_from [] x.

(** [sep.join(words)] *)
Fixpoint join (sep : str) (words : list str) : str :=
  match words with
  | [] => []
  | [w] => w
  | w :: ws => w ++ sep ++ join sep ws
  end.

(** ** Exceptions *)

Inductive exn := AttributeError | KeyError | IndexError | OSError.

Inductive result (A : Type) : Type :=
| Ok (a : A)
| Raise (e : exn).
Arguments Ok {A} a.
Arguments Raise {A} e.

#[global] Instance result_ret : MRet result := λ A a, Ok a.
#[global] Instance result_bind : MBind result := λ A B k c,
  match c with
  | Ok a => k a
  | Raise e => Raise e
  end.

(** ** dict

    A [dict] is the list of its items in insertion order; the keys of a
    dict are pairwise distinct ([dict_wf]), which every operation below
    preserves. *)

Definition dict (K V : Type) : Type := list (K * V).

Section dict.
Context {K V : Type} `{EqDecision K}.

Definition dict_wf (d : dict K V) : Prop := NoDup d.*1.

(** [d.get(k)] *)
Fixpoint dict_get (d : dict K V) (k : K) : option V :=
  match d with
  | [] => None
  | (k', v) :: d' => if decide (k = k') then Some v else dict_get d' k
  end.

(** [k in d] *)
Definition dict_in (d : dict K V) (k : K) : bool :=
  if dict_get d k is Some _ then true else false.

(** [d[k]] *)
Definition dict_getitem (d : dict K V) (k : K) : result V :=
  match dict_get d k with
  | Some v => Ok v
  | None => Raise KeyError
  end.

(** [d[k] = v]: a present key keeps its place, a new one goes last. *)
Fixpoint dict_setitem (d : dict K V) (k : K) (v : V) : dict K V :=
  match d with
  | [] => [(k, v)]
  | (k', v') :: d' =>
      if decide (k = k') then (k', v) :: d'
      else (k', v') :: dict_setitem d' k v
  end.

(** Removal of [k] when present. *)
Fixpoint dict_remove (d : dict K V) (k : K) : dict K V :=
  match d with
  | [] => []
  | (k', v') :: d' =>
      if decide (k = k') then d' else (k', v') :: dict_remove d' k
  end.

(** [list(d)], the keys: what iterating over a dict yields. *)
Definition dict_keys (d : dict K V) : list K := d.*1.

(** [{k: v for k, v in items}] *)
Definition dict_of_items (items : list (K * V)) : dict K V :=
  foldl (λ d kv, dict_setitem d kv.1 kv.2) [] items.
End dict.

(** [(v, k)] for an item [(k, v)], as in [{v: k for k, v in d.items()}]. *)
Definition swap {A B} (p : A * B) : B * A := (p.2, p.1).

(** [d1 == d2] for dicts: as many items, and every item of [d1] an item
    of [d2]; the order of insertion does not count. *)
Definition dict_eqb {K V} `{EqDecision K, EqDecision V}
    (d1 d2 : dict K V) : bool :=
  bool_decide (length d1 = length d2)
  && forallb (λ kv, bool_decide (dict_get d2 kv.1 = Some kv.2)) d1.

(** ** data_utils.vector, as [load_vectors] reads it *)

(** A [Vectors] object: [load_vectors] reads its [dim]. *)
Module Vectors.
Record t := { dim : nat }.
End Vectors.

(** One entry of the [vectors] argument: the name of pretrained vectors,
    a [Vectors] object, or any other object. *)
Inductive vector_spec :=
| Alias (name : str)
| Object (v : Vectors.t)
| Other_object.

(** The [vectors] argument: one entry, or a list of entries. *)
Inductive vectors_arg :=
| Single (vector : vector_spec)
| Several (vectors : list vector_spec).

(** What reading an annotation file and [load_vectors] can raise beside
    the exceptions of [exn]. *)
Inductive load_exn := ValueError | AssertionError | Raised (e : exn).

Inductive outcome (A : Type) : Type :=
| Returns (a : A)
| Fails (e : load_exn).
Arguments Returns {A} a.
Arguments Fails {A} e.

#[global] Instance outcome_ret : MRet outcome := λ A a, Returns a.
#[global] Instance outcome_bind : MBind outcome := λ A B k c,
  match c with
  | Returns a => k a
  | Fails e => Fails e
  end.

(** ** collections.Counter *)

Definition Counter : Type := dict str Z.

(** [c[k]]: a missing key counts 0. *)
Definition Counter_getitem (c : Counter) (k : str) : Z :=
  default 0 (dict_get c k).

(** [c.update(iterable)]: one more for each element, in order. *)
Definition Counter_update (c : Counter) (iterable : list str) : Counter :=
  foldl (λ c elem, dict_setitem c elem (Counter_getitem c elem + 1)) c iterable.

(** [del c[k]]: unlike [dict], no [KeyError] for a missing key. *)
Definition Counter_delitem (c : Counter) (k : str) : Counter :=
  dict_remove c k.

(** ** sorted, list.sort

    Python's sort is stable, and a stable sort has one possible result:
    insertion from the right, each element placed before the first one it
    does not exceed. [sort_by before] orders by [before x y], read as
    "the key of [x] may come before the key of [y]". *)

Fixpoint insert_by {A} (before : A → A → bool) (x : A) (l : list A) : list A :=
  match l with
  | [] => [x]
  | y :: l' => if before x y then x :: l else y :: insert_by before x l'
  end.

Definition sort_by {A} (before : A → A → bool) (l : list A) : list A :=
  foldr (insert_by before) [] l.

(** [enumerate(l)], from [i]. *)
Fixpoint enumerate_from {A} (i : nat) (l : list A) : list (Z * A) :=
  match l with
  | [] => []
  | x :: l' => (Z.of_nat i, x) :: enumerate_from (S i) l'
  end.

Definition enumerate {A} (l : list A) : list (Z * A) := enumerate_from 0 l.

(** ** torch: a one-dimensional integer tensor *)

(** A tensor of [long] is the list of its elements; they are indices of
    a vocabulary here, far inside the range of a 64-bit integer, and are
    kept as [Z].

    [vec[i] = x] for [0 <= i]: out of range is an [IndexError]. *)
Definition tensor_setitem (vec : list Z) (i : nat) (x : Z) : result (list Z) :=
  if decide (i < length vec)%nat then Ok (<[i := x]> vec) else Raise IndexError.

(** ** The collaborators *)

(** A parsed annotation file: the [caption] of each entry of its
    ["annotations"] list, in order.  A path of [json_dirs] stands for the
    document it names. *)
Definition json_data : Type := list str.

(** What [AutoTokenizer.from_pretrained] returns, as far as [Vocab] reads
    it: the four special tokens (a tokenizer may have [None] for one) and
    [get_vocab()]. *)
Module TokenEncoder.
Record t := {
  pad_token : option str;
  bos_token : option str;
  eos_token : option str;
  unk_token : option str;
  get_vocab : dict str Z
}.
End TokenEncoder.

(** ** class Vocab *)

Module Vocab.

(** The attributes of an instance after [__init__], [vectors] apart: the
    shape of that tensor is returned beside the instance by [new]. *)
Record t := {
  tokenizer : option str;
  freqs : Counter;
  max_caption_length : nat;
  padding_token : str;
  bos_token : str;
  eos_token : str;
  unk_token : str;
  stoi : dict str Z;
  itos : dict Z str;
  padding_idx : Z;
  bos_idx : Z;
  eos_idx : Z;
  unk_idx : Z;
  specials : list str
}.

(** Reading an attribute that no assignment has set yet. *)
Definition getattr {A} (slot : option A) : result A :=
  match slot with
  | Some a => Ok a
  | None => Raise AttributeError
  end.

(** [stoi[tok]] for a special token, which a pretrained tokenizer may
    have as [None]: [None] is no key of [stoi]. *)
Definition getitem_token (stoi : dict str Z) (tok : option str)
  : result (str * Z) :=
  match tok with
  | Some w => i ← dict_getitem stoi w; Ok (w, i)
  | None => Raise KeyError
  end.

(** Lines 53-54: [sorted] by the token, then [sort] by the frequency,
    largest first ([reverse=True] keeps equal keys in their order). *)
Definition words_and_frequencies (counter : Counter) : list (str * Z) :=
  let words_and_frequencies := sort_by (λ a b, str_leb a.1 b.1) counter in
  sort_by (λ a b, b.2 <=? a.2) words_and_frequencies.

(** The loop of lines 81-84 over [words_and_frequencies]. *)
Fixpoint append_words (min_freq : Z) (max_size : option Z)
    (words_and_frequencies : list (str * Z)) (itos : list str) : list str :=
  match words_and_frequencies with
  | [] => itos
  | (word, freq) :: rest =>
      if (freq <? min_freq)
         || bool_decide (Some (Z.of_nat (length itos)) = max_size)
      then itos
      else append_words min_freq max_size rest (itos ++ [word])
  end.

Section methods.
(** [data_utils.utils.preprocess_caption(caption, tokenizer)] *)
Variable preprocess_caption : str → option str → list str.
(** [transformers.AutoTokenizer.from_pretrained(name)] *)
Variable from_pretrained : str → result TokenEncoder.t.

(** [make_vocab]: the frequencies and the maximum caption length
    ([output_cats] is set to the empty set and not read again). *)
Definition make_vocab (tokenizer : option str) (json_dirs : list json_data)
  : Counter * nat :=
  foldl (λ st json_data,
    foldl (λ '(freqs, max_caption_length) ann,
      let caption := preprocess_caption ann tokenizer in
      (Counter_update freqs caption,
       if decide (max_caption_length < length caption + 2)%nat
       then (length caption + 2)%nat else max_caption_length))
      st json_data)
    ([], 0%nat) json_dirs.

(** Lines 44-96 of [__init__], on the annotation files as they are read
    and with [vectors] at [None], so that line 98 leaves [self.vectors]
    at [None]; [new] below has the reading of the files and lines
    98-100. *)
Definition __init__ (json_dirs : list json_data) (max_size : option Z)
    (min_freq : Z) (bos_token eos_token padding_token : str)
    (pretrained_language_model_name : option str) (unk_token : str)
    (tokenizer_name : option str) : result t :=
  let tokenizer := tokenizer_name in
  (* no assignment to self.itos has run before line 45 reads it *)
  let self_itos : option (dict Z str) := None in
  max_size ← match max_size with
             | None => Ok None
             | Some m =>
                 itos ← getattr self_itos;
                 Ok (Some (m + Z.of_nat (length itos)))
             end;
  let '(freqs, max_caption_length) := make_vocab tokenizer json_dirs in
  let counter := freqs in
  let min_freq := Z.max min_freq 1 in
  let words_and_frequencies := words_and_frequencies counter in
  '(padding_token, bos_token, eos_token, unk_token, stoi, itos) ←
    match pretrained_language_model_name with
    | Some name =>
        token_encoder ← from_pretrained name;
        let stoi := TokenEncoder.get_vocab token_encoder in
        let itos := dict_of_items (swap <$> stoi) in
        Ok (TokenEncoder.pad_token token_encoder,
            TokenEncoder.bos_token token_encoder,
            TokenEncoder.eos_token token_encoder,
            TokenEncoder.unk_token token_encoder, stoi, itos)
    | None =>
        let specials := [padding_token; bos_token; eos_token; unk_token] in
        let itos := specials in
        (* the copy loses the specials; nothing reads it afterwards *)
        let counter := foldl Counter_delitem counter specials in
        let itos := append_words min_freq max_size words_and_frequencies itos in
        let itos := dict_of_items (enumerate itos) in
        let stoi := dict_of_items (swap <$> itos) in
        Ok (Some padding_token, Some bos_token, Some eos_token,
            Some unk_token, stoi, itos)
    end;
  '(padding_token, padding_idx) ← getitem_token stoi padding_token;
  '(bos_token, bos_idx) ← getitem_token stoi bos_token;
  '(eos_token, eos_idx) ← getitem_token stoi eos_token;
  '(unk_token, unk_idx) ← getitem_token stoi unk_token;
  Ok {| tokenizer := tokenizer; freqs := freqs;
        max_caption_length := max_caption_length;
        padding_token := padding_token; bos_token := bos_token;
        eos_token := eos_token; unk_token := unk_token;
        stoi := stoi; itos := itos;
        padding_idx := padding_idx; bos_idx := bos_idx;
        eos_idx := eos_idx; unk_idx := unk_idx;
        specials := [padding_token; bos_token; eos_token; unk_token] |}.
End methods.

(** [self.stoi[token] if token in self.stoi else self.unk_idx] *)
Definition index_of (self : t) (token : str) : Z :=
  match dict_get (stoi self) token with
  | Some i => i
  | None => unk_idx self
  end.

(** The loop of [encode_caption] from position [i] on. *)
Fixpoint encode_loop (self : t) (vec : list Z) (i : nat) (tokens : list str)
  : result (list Z) :=
  match tokens with
  | [] => Ok vec
  | token :: rest =>
      vec ← tensor_setitem vec i (index_of self token);
      encode_loop self vec (S i) rest
  end.

Definition encode_caption (self : t) (caption : list str) : result (list Z) :=
  let vec := replicate (max_caption_length self) (padding_idx self) in
  encode_loop self vec 0 ([bos_token self] ++ caption ++ [eos_token self]).

(** The inner loop of [decode_caption] over [vec.tolist()]. *)
Fixpoint decode_words (self : t) (words : list str) (vec : list Z)
  : result (list str) :=
  match vec with
  | [] => Ok words
  | idx :: rest =>
      tok ← dict_getitem (itos self) idx;
      let words :=
        if bool_decide (tok ∉ specials self) then words ++ [tok] else words in
      if bool_decide (idx = eos_idx self) then Ok words
      else decode_words self words rest
  end.

(** One decoded caption: a string, or a list of tokens. *)
Inductive caption := Joined (c : str) | Words (ws : list str).

(** The body of the outer loop of [decode_caption] for one row. *)
Definition decode_row (self : t) (join_words : bool) (vec : list Z)
  : result caption :=
  words ← decode_words self [] vec;
  let caption := join (lit " ") words in
  Ok (if join_words then Joined caption else Words (split (strip caption))).

Definition decode_caption (self : t) (caption_vecs : list (list Z))
    (join_words : bool) : result (list caption) :=
  mapM (decode_row self join_words) caption_vecs.

(** What [for w in words] binds [w] to. *)
Inductive obj := Int (i : Z) | Str (s : str).

(** [w in self.stoi]: the keys of [stoi] are [str], and an [int] equals
    no [str]. *)
Definition stoi_contains (stoi : dict str Z) (w : obj) : bool :=
  match w with
  | Str s => dict_in stoi s
  | Int _ => false
  end.

(** [self.itos.append(w)].  [self.itos] is a dict (lines 68 and 85), and
    a dict has no attribute [append]: the call raises for every [w]. *)
Definition itos_append (itos : dict Z str) (w : obj) : result (dict Z str) :=
  Raise AttributeError.

(** [self.stoi[w] = len(self.itos) - 1] of line 160, which is not
    reached; [dict str Z] has no place for an [int] key. *)
Definition stoi_setitem (stoi : dict str Z) (w : obj) (i : Z) : dict str Z :=
  match w with
  | Str s => dict_setitem stoi s i
  | Int _ => stoi
  end.

Fixpoint extend_loop (self : t) (words : list obj) : result t :=
  match words with
  | [] => Ok self
  | w :: rest =>
      if negb (stoi_contains (stoi self) w) then
        itos ← itos_append (itos self) w;
        let stoi := stoi_setitem (stoi self) w (Z.of_nat (length itos) - 1) in
        extend_loop
          {| tokenizer := tokenizer self; freqs := freqs self;
             max_caption_length := max_caption_length self;
             padding_token := padding_token self; bos_token := bos_token self;
             eos_token := eos_token self; unk_token := unk_token self;
             stoi := stoi; itos := itos;
             padding_idx := padding_idx self; bos_idx := bos_idx self;
             eos_idx := eos_idx self; unk_idx := unk_idx self;
             specials := specials self |} rest
      else extend_loop self rest
  end.

(** [self.extend(v, sort)]; iterating over the dict [v.itos] yields its
    keys, the indices. *)
Definition extend (self v : t) (sort : bool) : result t :=
  let words :=
    if sort then sort_by Z.leb (dict_keys (itos v)) else dict_keys (itos v) in
  extend_loop self (Int <$> words).

(** [len(self)]: the number of items of the dict [itos]. *)
Definition __len__ (self : t) : nat := length (itos self).

(** [self == other], for two instances with [vectors] at [None].  The
    counters are compared as the dicts they are (from Python 3.10 on a
    Counter compares counts, a missing one as 0; the counters of
    [make_vocab] hold no count of 0, and the two readings agree on
    them). *)
Definition __eq__ (self other : t) : bool :=
  if negb (dict_eqb (freqs self) (freqs other)) then false
  else if negb (dict_eqb (stoi self) (stoi other)) then false
  else if negb (dict_eqb (itos self) (itos other)) then false
  else true.

(** The first loop of [load_vectors] (lines 175-190).  [pretrained_aliases]
    gives for a known name what calling its constructor with the keyword
    arguments comes to. *)
Fixpoint resolve_vectors (pretrained_aliases : dict str (result Vectors.t))
    (vectors : list vector_spec) : outcome (list Vectors.t) :=
  match vectors with
  | [] => Returns []
  | vector :: rest =>
      v ← match vector with
          | Alias name =>
              match dict_get pretrained_aliases name with
              | None => Fails ValueError
              | Some (Ok v) => Returns v
              | Some (Raise e) => Fails (Raised e)
              end
          | Object v => Returns v
          | Other_object => Fails ValueError
          end;
      vs ← resolve_vectors pretrained_aliases rest;
      Returns (v :: vs)
  end.

(** [token.strip()] for a key of [itos]: an [int] has no attribute
    [strip]. *)
Definition int_strip (token : Z) : outcome str := Fails (Raised AttributeError).

(** The loop of lines 196-199 for one [token]; the part of the row that
    is written is not kept, [v[token.strip()]] raising before it. *)
Fixpoint fill_row (token : Z) (start_dim : nat) (vectors : list Vectors.t)
  : outcome nat :=
  match vectors with
  | [] => Returns start_dim
  | v :: rest =>
      let end_dim := (start_dim + Vectors.dim v)%nat in
      key ← int_strip token;
      fill_row token end_dim rest
  end.

(** The loop of lines 194-200 over the keys of [itos]. *)
Fixpoint fill_rows (tokens : list Z) (vectors : list Vectors.t) (tot_dim : nat)
  : outcome unit :=
  match tokens with
  | [] => Returns ()
  | token :: rest =>
      start_dim ← fill_row token 0 vectors;
      if decide (start_dim = tot_dim) then fill_rows rest vectors tot_dim
      else Fails AssertionError
  end.

(** [self.load_vectors(vectors, **kwargs)]; what is returned is the shape
    of [self.vectors]. *)
Definition load_vectors (pretrained_aliases : dict str (result Vectors.t))
    (self : t) (vectors : vectors_arg) : outcome (nat * nat) :=
  let vectors :=
    match vectors with
    | Several vectors => vectors
    | Single vector => [vector]
    end in
  vectors ← resolve_vectors pretrained_aliases vectors;
  let tot_dim := sum_list (Vectors.dim <$> vectors) in
  let shape := (__len__ self, tot_dim) in
  _ ← fill_rows (dict_keys (itos self)) vectors tot_dim;
  Returns shape.

(** An exception of [exn], raised from [__init__]. *)
Definition raised {A} (r : result A) : outcome A :=
  match r with
  | Ok a => Returns a
  | Raise e => Fails (Raised e)
  end.

(** [Vocab(json_dirs, ..., vectors=vectors)]: the whole of lines 44-100.
    Each path of [json_dirs] comes as what reading it at lines 107-109
    gives: the captions of the file, or the exception of a file that
    cannot be opened or parsed.  Line 45 runs before the first file is
    opened; the files are read in order, and the first exception ends
    the construction; [load_vectors] is called last (lines 98-100).
    What is returned is the instance and the shape of [self.vectors],
    [None] when no vectors are asked for. *)
Definition new (pretrained_aliases : dict str (result Vectors.t))
    (preprocess_caption : str → option str → list str)
    (from_pretrained : str → result TokenEncoder.t)
    (json_dirs : list (outcome json_data)) (max_size : option Z)
    (min_freq : Z) (bos_token eos_token padding_token : str)
    (pretrained_language_model_name : option str) (unk_token : str)
    (vectors : option vectors_arg) (tokenizer_name : option str)
  : outcome (t * option (nat * nat)) :=
  json_data ← match max_size with
              | Some _ => Fails (Raised AttributeError)
              | None => mapM (λ json_dir, json_dir) json_dirs
              end;
  self ← raised (__init__ preprocess_caption from_pretrained json_data max_size
                   min_freq bos_token eos_token padding_token
                   pretrained_language_model_name unk_token tokenizer_name);
  match vectors with
  | None => Returns (self, None)
  | Some vectors =>
      shape ← load_vectors pretrained_aliases self vectors;
      Returns (self, Some shape)
  end.
End Vocab.

(** ** Vocabulary of the statements *)

(** The tokenized captions of all annotation files, in reading order. *)
Definition captions (preprocess_caption : str → option str → list str)
    (tokenizer : option str) (json_dirs : list json_data) : list (list str) :=
  (λ ann, preprocess_caption ann tokenizer) <$> concat json_dirs.

(** The list that [dict(enumerate(itos))] is built from when no pretrained
    model is named: the specials, then the words the loop appends. *)
Definition itos_list (preprocess_caption : str → option str → list str)
    (json_dirs : list json_data) (min_freq : Z)
    (bos eos pad unk : str) (tokenizer : option str) : list str :=
  Vocab.append_words (Z.max min_freq 1) None
    (Vocab.words_and_frequencies
       (Vocab.make_vocab preprocess_caption tokenizer json_dirs).1)
    [pad; bos; eos; unk].

(** The encoding of [caption] when it fits. *)
Definition encoding (self : Vocab.t) (caption : list str) : list Z :=
  [Vocab.index_of self (Vocab.bos_token self)]
  ++ (Vocab.index_of self <$> caption)
  ++ [Vocab.index_of self (Vocab.eos_token self)]
  ++ replicate (Vocab.max_caption_length self - (length caption + 2))
       (Vocab.padding_idx self).

(** What a stable sort by [before] makes of a list in the order [R]: [x]
    is placed before [y] when its key is strictly before, or when the keys
    are level and [x] came first ([R x y]). *)
Definition then_by {A} (before : A → A → bool) (R : A → A → Prop)
    (x y : A) : Prop :=
  before y x = false ∨ (before x y = true ∧ before y x = true ∧ R x y).

(** [a < b] on [str]. *)
Definition str_lt (a b : str) : Prop := str_leb a b = true ∧ a ≠ b.

(** The order of the items of the counter after lines 53-54: by
    frequency, larger first, and by token among equal frequencies. *)
Definition pair_order (a b : str * Z) : Prop :=
  b.2 < a.2 ∨ (a.2 = b.2 ∧ str_lt a.1 b.1).

(** The same order on the words, their frequencies read in [freqs]. *)
Definition word_order (freqs : Counter) (a b : str) : Prop :=
  Counter_getitem freqs b < Counter_getitem freqs a
  ∨ (Counter_getitem freqs a = Counter_getitem freqs b ∧ str_lt a b).

(** How often [t] occurs in [l]. *)
Definition occurrences (t : str) (l : list str) : Z :=
  Z.of_nat (length (filter (λ x, x = t) l)).

(** A token that [" ".join] followed by [strip().split()] gives back. *)
Definition plain_token (w : str) : Prop :=
  w ≠ [] ∧ Forall (λ c, isspace c = false) w.

(** The pretrained tokenizer's vocabulary is a dict, and gives distinct
    tokens distinct indices. *)
Definition one_to_one (vocab : dict str Z) : Prop :=
  NoDup vocab.*1 ∧ NoDup vocab.*2.

(** Every model that [plm] can name has such a vocabulary. *)
Definition tokenizer_ok (from_pretrained : str → result TokenEncoder.t)
    (plm : option str) : Prop :=
  ∀ name te, plm = Some name → from_pretrained name = Ok te →
    one_to_one (TokenEncoder.get_vocab te).

(** The padding token of the pretrained tokenizer has its index to
    itself: no other token of the vocabulary has that index.  Without a
    pretrained model nothing is asked. *)
Definition padding_unshared (from_pretrained : str → result TokenEncoder.t)
    (plm : option str) : Prop :=
  ∀ name te pad i, plm = Some name → from_pretrained name = Ok te →
    TokenEncoder.pad_token te = Some pad →
    dict_get (TokenEncoder.get_vocab te) pad = Some i →
    Forall (λ ti, ti.2 = i → ti.1 = pad) (TokenEncoder.get_vocab te).

(** [itos[idx]] for each index of a row. *)
Definition tokens_of (self : Vocab.t) (vec : list Z) (toks : list str) : Prop :=
  Forall2 (λ idx tok, dict_get (Vocab.itos self) idx = Some tok) vec toks.

(** What [decode_row] makes of the words it kept. *)
Definition caption_of (join_words : bool) (words : list str) : Vocab.caption :=
  if join_words then Vocab.Joined (join (lit " ") words)
  else Vocab.Words (split (strip (join (lit " ") words))).

(** The largest [len(caption) + 2] of a list of tokenized captions, 0 for
    none. *)
Definition longest (captions : list (list str)) : nat :=
  max_list ((λ caption, length caption + 2)%nat <$> captions).

(** The four special tokens of a pretrained tokenizer. *)
Definition special_tokens (te : TokenEncoder.t) : list (option str) :=
  [TokenEncoder.pad_token te; TokenEncoder.bos_token te;
   TokenEncoder.eos_token te; TokenEncoder.unk_token te].

(** A special token of the tokenizer that is a key of its vocabulary. *)
Definition token_present (vocab : dict str Z) (tok : option str) : Prop :=
  match tok with
  | Some w => is_Some (dict_get vocab w)
  | None => False
  end.

(** An entry of [vectors] that the first loop of [load_vectors] accepts:
    a [Vectors] object, or a known name whose constructor returns. *)
Definition vector_accepted (pretrained_aliases : dict str (result Vectors.t))
    (vector : vector_spec) : Prop :=
  match vector with
  | Alias name => ∃ v, dict_get pretrained_aliases name = Some (Ok v)
  | Object _ => True
  | Other_object => False
  end.

(** An entry that it refuses: an unknown name, or an object that is no
    [Vectors]. *)
Definition vector_refused (pretrained_aliases : dict str (result Vectors.t))
    (vector : vector_spec) : Prop :=
  match vector with
  | Alias name => dict_get pretrained_aliases name = None
  | Object _ => False
  | Other_object => True
  end.

(** The entries of the [vectors] argument. *)
Definition vectors_list (vectors : vectors_arg) : list vector_spec :=
  match vectors with
  | Several vectors => vectors
  | Single vector => [vector]
  end.

(** The vocabulary of every model that [plm] can name is a dict: it holds
    a token once. *)
Definition vocabulary_is_dict (from_pretrained : str → result TokenEncoder.t)
    (plm : option str) : Prop :=
  ∀ name te, plm = Some name → from_pretrained name = Ok te →
    dict_wf (TokenEncoder.get_vocab te).

(** Annotation files that are all read: [json_dirs] are their captions. *)
Definition files_read (json_dirs : list json_data) : list (outcome json_data) :=
  Returns <$> json_dirs.

(** ** Inputs for the examples *)

(** Captions split at white space. *)
Definition whitespace_tokens (caption : str) (tokenizer : option str) : list str :=
  split caption.

(** Captions kept whole, one token each. *)
Definition whole_caption (caption : str) (tokenizer : option str) : list str :=
  [caption].

(** No pretrained language model at hand. *)
Definition no_model (name : str) : result TokenEncoder.t := Raise OSError.

(** A pretrained tokenizer of five tokens. *)
Definition small_encoder : TokenEncoder.t :=
  {| TokenEncoder.pad_token := Some (lit "<pad>");
     TokenEncoder.bos_token := Some (lit "<s>");
     TokenEncoder.eos_token := Some (lit "</s>");
     TokenEncoder.unk_token := Some (lit "<unk>");
     TokenEncoder.get_vocab :=
       [(lit "<s>", 0); (lit "<pad>", 1); (lit "</s>", 2); (lit "<unk>", 3);
        (lit "dog", 4)] |}.

Definition small_model (name : str) : result TokenEncoder.t := Ok small_encoder.

(** A pretrained tokenizer in which another token has the index of the
    padding token. *)
Definition shared_pad_encoder : TokenEncoder.t :=
  {| TokenEncoder.pad_token := Some (lit "<pad>");
     TokenEncoder.bos_token := Some (lit "<s>");
     TokenEncoder.eos_token := Some (lit "</s>");
     TokenEncoder.unk_token := Some (lit "<unk>");
     TokenEncoder.get_vocab :=
       [(lit "<s>", 0); (lit "<pad>", 1); (lit "</s>", 2); (lit "<unk>", 3);
        (lit "dog", 1)] |}.

Definition shared_pad_model (name : str) : result TokenEncoder.t :=
  Ok shared_pad_encoder.

(** The two annotation captions of the specification's scenario. *)
Definition dog_cat : list json_data := [[lit "a dog runs"; lit "a cat runs"]].

(** [Vocab(json_dirs)] on them, every other argument at its default. *)
Definition dog_cat_vocab : result Vocab.t :=
  Vocab.__init__ whitespace_tokens no_model dog_cat None 1
    (lit "<bos>") (lit "<eos>") (lit "<pad>") None (lit "<unk>") None.

(** [Vocab(json_dirs, pretrained_language_model_name=...)] with the small
    tokenizer. *)
Definition pretrained_vocab : result Vocab.t :=
  Vocab.__init__ whitespace_tokens small_model dog_cat None 1
    (lit "<bos>") (lit "<eos>") (lit "<pad>") (Some (lit "small")) (lit "<unk>")
    None.

(** The same with the tokenizer that shares the padding index. *)
Definition shared_pad_vocab : result Vocab.t :=
  Vocab.__init__ whitespace_tokens shared_pad_model dog_cat None 1
    (lit "<bos>") (lit "<eos>") (lit "<pad>") (Some (lit "shared")) (lit "<unk>")
    None.

(** [Vocab(json_dirs, bos_token="<s>", eos_token="<s>")]: one name for
    both ends of a caption. *)
Definition same_ends_vocab : result Vocab.t :=
  Vocab.__init__ whitespace_tokens no_model dog_cat None 1
    (lit "<s>") (lit "<s>") (lit "<pad>") None (lit "<unk>") None.

(** [Vocab(json_dirs, min_freq=2)] *)
Definition frequent_vocab : result Vocab.t :=
  Vocab.__init__ whitespace_tokens no_model dog_cat None 2
    (lit "<bos>") (lit "<eos>") (lit "<pad>") None (lit "<unk>") None.

(** [Vocab([])]: no annotation file. *)
Definition empty_vocab : result Vocab.t :=
  Vocab.__init__ whitespace_tokens no_model [] None 1
    (lit "<bos>") (lit "<eos>") (lit "<pad>") None (lit "<unk>") None.

(** A caption in which the unk token itself occurs. *)
Definition unk_inside_vocab : result Vocab.t :=
  Vocab.__init__ whitespace_tokens no_model [[lit "a <unk> runs"]] None 1
    (lit "<bos>") (lit "<eos>") (lit "<pad>") None (lit "<unk>") None.

(** Captions as single tokens, white space inside. *)
Definition whole_caption_vocab : result Vocab.t :=
  Vocab.__init__ whole_caption no_model dog_cat None 1
    (lit "<bos>") (lit "<eos>") (lit "<pad>") None (lit "<unk>") None.

(** The captions of [dog_cat] in two files, the other way round. *)
Definition cat_dog : list json_data := [[lit "a cat runs"]; [lit "a dog runs"]].

Definition cat_dog_vocab : result Vocab.t :=
  Vocab.__init__ whitespace_tokens no_model cat_dog None 1
    (lit "<bos>") (lit "<eos>") (lit "<pad>") None (lit "<unk>") None.

(** A pretrained tokenizer without a pad token. *)
Definition no_pad_encoder : TokenEncoder.t :=
  {| TokenEncoder.pad_token := None;
     TokenEncoder.bos_token := Some (lit "<s>");
     TokenEncoder.eos_token := Some (lit "</s>");
     TokenEncoder.unk_token := Some (lit "<unk>");
     TokenEncoder.get_vocab :=
       [(lit "<s>", 0); (lit "</s>", 1); (lit "<unk>", 2); (lit "dog", 3)] |}.

Definition no_pad_model (name : str) : result TokenEncoder.t := Ok no_pad_encoder.

(** The pretrained vectors that the docstring of [load_vectors] names. *)
Definition known_vectors : dict str (result Vectors.t) :=
  [(lit "fasttext.vi.300d", Ok {| Vectors.dim := 300 |});
   (lit "phow2v.syllable.100d", Ok {| Vectors.dim := 100 |});
   (lit "phow2v.syllable.300d", Ok {| Vectors.dim := 300 |})].

(** The annotation file of [dog_cat], and a path that names no file. *)
Definition dog_cat_missing : list (outcome json_data) :=
  files_read dog_cat ++ [Fails (Raised OSError)].

(** ** The result monad *)

Lemma bind_Ok {A B} (c : result A) (k : A → result B) (b : B) :
  c ≫= k = Ok b → ∃ a, c = Ok a ∧ k a = Ok b.
Proof. destruct c as [a|e]; [eauto | discriminate]. Qed.

Ltac inv_bind H :=
  let a := fresh "a" in
  let Ha := fresh "Ha" in
  apply bind_Ok in H as (a & Ha & H).

(** ** dict *)

Section dict_facts.
Context {K V : Type} `{EqDecision K}.
Implicit Types (d : dict K V) (k : K) (v : V).

Lemma dict_get_Some_elem d k v : dict_get d k = Some v → (k, v) ∈ d.
Proof.
  induction d as [|[k' v'] d IH]; simpl; [discriminate|].
  destruct (decide (k = k')) as [->|]; intros E.
  - injection E as ->. left.
  - right. auto.
Qed.

Lemma dict_get_None d k : dict_get d k = None ↔ k ∉ d.*1.
Proof.
  induction d as [|[k' v'] d IH]; simpl.
  - split; [intros _; apply not_elem_of_nil | done].
  - rewrite not_elem_of_cons. destruct (decide (k = k')) as [->|Hne].
    + split; [discriminate | intros [? _]; done].
    + rewrite IH. split; [done | by intros [_ ?]].
Qed.

Lemma dict_get_is_Some d k : is_Some (dict_get d k) ↔ k ∈ d.*1.
Proof.
  rewrite <- not_eq_None_Some, dict_get_None.
  split; [apply dec_stable | auto].
Qed.

Lemma dict_get_elem d k v : dict_wf d → (k, v) ∈ d → dict_get d k = Some v.
Proof.
  unfold dict_wf. induction d as [|[k' v'] d IH]; simpl.
  - intros _ Hin. by apply elem_of_nil in Hin.
  - rewrite NoDup_cons. intros [Hk' Hd] Hin.
    apply elem_of_cons in Hin as [E|Hin].
    + injection E as -> ->. by rewrite decide_True.
    + destruct (decide (k = k')) as [->|]; [|auto].
      destruct Hk'. apply list_elem_of_fmap. by exists (k', v).
Qed.

Lemma dict_setitem_fresh d k v : k ∉ d.*1 → dict_setitem d k v = d ++ [(k, v)].
Proof.
  induction d as [|[k' v'] d IH]; simpl; [done|].
  rewrite not_elem_of_cons. intros [Hne Hd].
  rewrite decide_False by done. by rewrite IH.
Qed.

Lemma dict_of_items_NoDup (items : list (K * V)) :
  NoDup items.*1 → dict_of_items items = items.
Proof.
  unfold dict_of_items.
  enough (∀ d, NoDup (d ++ items).*1 →
    foldl (λ d kv, dict_setitem d kv.1 kv.2) d items = d ++ items) as G
    by (intros; by apply (G [])).
  induction items as [|[k v] items IH]; intros d Hd; simpl.
  - by rewrite app_nil_r.
  - rewrite dict_setitem_fresh.
    + rewrite IH; rewrite <- app_assoc; done.
    + rewrite fmap_app in Hd. apply NoDup_app in Hd as (_ & Hd & _).
      intros Hk. apply (Hd k Hk). simpl. left.
Qed.

Lemma dict_setitem_keys d k v :
  (dict_setitem d k v).*1 = if decide (k ∈ d.*1) then d.*1 else d.*1 ++ [k].
Proof.
  induction d as [|[k' v'] d IH]; csimpl; [done|].
  destruct (decide (k = k')) as [->|Hne]; csimpl.
  - clear IH. case_decide as Hin; [done|]. destruct Hin. left.
  - rewrite IH. clear IH. destruct (decide (k ∈ d.*1)) as [Hin|Hin].
    + case_decide as Hin'; [done|]. destruct Hin'. by right.
    + case_decide as Hin'; [|done].
      apply elem_of_cons in Hin' as [?|?]; done.
Qed.

Lemma dict_setitem_wf d k v : dict_wf d → dict_wf (dict_setitem d k v).
Proof.
  unfold dict_wf. rewrite dict_setitem_keys. intros Hd.
  case_decide; [done|].
  apply NoDup_app. split_and!; [done | | apply NoDup_singleton].
  intros x Hx Hx'. apply list_elem_of_singleton in Hx' as ->. done.
Qed.

Lemma dict_get_setitem d k v k' :
  dict_get (dict_setitem d k v) k' =
    if decide (k' = k) then Some v else dict_get d k'.
Proof.
  induction d as [|[k0 v0] d IH]; simpl.
  - done.
  - destruct (decide (k = k0)) as [->|Hne]; simpl.
    + destruct (decide (k' = k0)); done.
    + rewrite IH. destruct (decide (k' = k0)) as [->|]; [|done].
      by rewrite decide_False.
Qed.

Lemma dict_of_items_wf (items : list (K * V)) : dict_wf (dict_of_items items).
Proof.
  unfold dict_of_items.
  enough (∀ d, dict_wf d →
    dict_wf (foldl (λ d kv, dict_setitem d kv.1 kv.2) d items)) as G
    by (apply G, NoDup_nil_2).
  induction items as [|kv items IH]; intros d Hd; simpl; [done|].
  by apply IH, dict_setitem_wf.
Qed.

Lemma dict_of_items_elem (items : list (K * V)) k v :
  dict_get (dict_of_items items) k = Some v → (k, v) ∈ items.
Proof.
  unfold dict_of_items.
  enough (∀ d, dict_get (foldl (λ d kv, dict_setitem d kv.1 kv.2) d items) k
      = Some v → (k, v) ∈ items ∨ dict_get d k = Some v) as G.
  { intros E. by destruct (G [] E). }
  induction items as [|[k0 v0] items IH]; intros d; simpl; [auto|].
  intros E. apply IH in E as [E|E]; [left; by right|].
  rewrite dict_get_setitem in E. case_decide as Hk; [|auto].
  injection E as <-. subst k. left. left.
Qed.
End dict_facts.

(** ** Construction *)

Lemma getitem_token_Ok (stoi : dict str Z) tok w i :
  Vocab.getitem_token stoi tok = Ok (w, i) →
  tok = Some w ∧ dict_get stoi w = Some i.
Proof.
  destruct tok as [w'|]; simpl; [|discriminate].
  unfold dict_getitem.
  destruct (dict_get stoi w') as [j|] eqn:Ej; simpl; [|discriminate].
  intros E. injection E as <- <-. done.
Qed.

Section construction.
Variable preprocess_caption : str → option str → list str.
Variable from_pretrained : str → result TokenEncoder.t.

Abbreviation init := (Vocab.__init__ preprocess_caption from_pretrained).
Abbreviation make_vocab := (Vocab.make_vocab preprocess_caption).

(** What a construction that returns has done. *)
Lemma init_Ok json_dirs max_size min_freq bos eos pad plm unk tokenizer v :
  init json_dirs max_size min_freq bos eos pad plm unk tokenizer = Ok v →
  max_size = None ∧
  Vocab.tokenizer v = tokenizer ∧
  Vocab.freqs v = (make_vocab tokenizer json_dirs).1 ∧
  Vocab.max_caption_length v = (make_vocab tokenizer json_dirs).2 ∧
  Vocab.specials v = [Vocab.padding_token v; Vocab.bos_token v;
                      Vocab.eos_token v; Vocab.unk_token v] ∧
  dict_get (Vocab.stoi v) (Vocab.padding_token v) = Some (Vocab.padding_idx v) ∧
  dict_get (Vocab.stoi v) (Vocab.bos_token v) = Some (Vocab.bos_idx v) ∧
  dict_get (Vocab.stoi v) (Vocab.eos_token v) = Some (Vocab.eos_idx v) ∧
  dict_get (Vocab.stoi v) (Vocab.unk_token v) = Some (Vocab.unk_idx v) ∧
  match plm with
  | None =>
      Vocab.padding_token v = pad ∧ Vocab.bos_token v = bos ∧
      Vocab.eos_token v = eos ∧ Vocab.unk_token v = unk ∧
      Vocab.itos v = dict_of_items (enumerate
        (itos_list preprocess_caption json_dirs min_freq bos eos pad unk tokenizer)) ∧
      Vocab.stoi v = dict_of_items (swap <$> Vocab.itos v)
  | Some name =>
      ∃ te, from_pretrained name = Ok te ∧
        TokenEncoder.pad_token te = Some (Vocab.padding_token v) ∧
        TokenEncoder.bos_token te = Some (Vocab.bos_token v) ∧
        TokenEncoder.eos_token te = Some (Vocab.eos_token v) ∧
        TokenEncoder.unk_token te = Some (Vocab.unk_token v) ∧
        Vocab.stoi v = TokenEncoder.get_vocab te ∧
        Vocab.itos v = dict_of_items (swap <$> Vocab.stoi v)
  end.
Proof.
  unfold Vocab.__init__, itos_list. intros H.
  destruct max_size as [m|]; [discriminate|]. simpl in H.
  destruct (make_vocab tokenizer json_dirs) as [freqs mcl] eqn:Emv.
  inv_bind H. destruct a as [[[[[pad' bos'] eos'] unk'] stoi] itos].
  inv_bind H. destruct a as [pad'' ipad]. apply getitem_token_Ok in Ha0 as [-> Hpad].
  inv_bind H. destruct a as [bos'' ibos]. apply getitem_token_Ok in Ha0 as [-> Hbos].
  inv_bind H. destruct a as [eos'' ieos]. apply getitem_token_Ok in Ha0 as [-> Heos].
  inv_bind H. destruct a as [unk'' iunk]. apply getitem_token_Ok in Ha0 as [-> Hunk].
  injection H as <-. simpl. split_and!; try done.
  destruct plm as [name|].
  - inv_bind Ha. injection Ha as <- <- <- <- <- <-. eauto 10.
  - injection Ha as <- <- <- <- <- <-. done.
Qed.
End construction.

(** ** encode_caption *)

Lemma tensor_setitem_Ok vec i x :
  (i < length vec)%nat → tensor_setitem vec i x = Ok (<[i := x]> vec).
Proof. intros Hi. unfold tensor_setitem. by rewrite decide_True. Qed.

Lemma encode_loop_fits self tokens : ∀ vec i,
  (i + length tokens ≤ length vec)%nat →
  Vocab.encode_loop self vec i tokens =
    Ok (take i vec ++ (Vocab.index_of self <$> tokens)
        ++ drop (i + length tokens) vec).
Proof.
  induction tokens as [|token rest IH]; intros vec i Hlen; simpl in *.
  - by rewrite Nat.add_0_r, take_drop.
  - rewrite tensor_setitem_Ok by lia. simpl.
    rewrite IH by (rewrite length_insert; lia).
    f_equal. rewrite (take_S_r _ _ (Vocab.index_of self token)).
    + rewrite take_insert_ge by lia. rewrite <- app_assoc. simpl.
      rewrite drop_insert_lt by lia.
      by replace (i + S (length rest))%nat with (S (i + length rest)) by lia.
    + apply list_lookup_insert_eq. lia.
Qed.

Lemma encode_loop_overflow self tokens : ∀ vec i,
  (i ≤ length vec < i + length tokens)%nat →
  Vocab.encode_loop self vec i tokens = Raise IndexError.
Proof.
  induction tokens as [|token rest IH]; intros vec i Hlen; simpl in *; [lia|].
  unfold tensor_setitem. case_decide as Hi; simpl.
  - apply IH. rewrite length_insert. lia.
  - done.
Qed.

Lemma encode_caption_eq self caption :
  Vocab.encode_caption self caption =
    if decide (length caption + 2 ≤ Vocab.max_caption_length self)%nat
    then Ok (encoding self caption) else Raise IndexError.
Proof.
  unfold Vocab.encode_caption, encoding. case_decide as Hlen.
  - rewrite encode_loop_fits.
    + simpl. rewrite fmap_app, <- app_assoc. simpl. do 3 f_equal.
      rewrite drop_replicate, length_app. simpl. do 2 f_equal. lia.
    + rewrite length_replicate. simpl. rewrite length_app. simpl. lia.
  - apply encode_loop_overflow.
    rewrite length_replicate. simpl. rewrite length_app. simpl. lia.
Qed.

(** ** The order on str *)

Lemma str_leb_total a : ∀ b, str_leb a b = false → str_leb b a = true.
Proof.
  induction a as [|x a IH]; intros [|y b]; simpl; try done.
  destruct (N.ltb_spec x y), (N.ltb_spec y x), (N.eqb_spec x y),
    (N.eqb_spec y x); try done; try lia. apply IH.
Qed.

Lemma str_leb_trans a : ∀ b c,
  str_leb a b = true → str_leb b c = true → str_leb a c = true.
Proof.
  induction a as [|x a IH]; intros [|y b] [|z c]; simpl; try done.
  destruct (N.ltb_spec x y), (N.ltb_spec y z), (N.ltb_spec x z),
    (N.eqb_spec x y), (N.eqb_spec y z), (N.eqb_spec x z);
    try done; try lia. apply IH.
Qed.

Lemma str_leb_antisym a : ∀ b,
  str_leb a b = true → str_leb b a = true → a = b.
Proof.
  induction a as [|x a IH]; intros [|y b]; simpl; try done.
  destruct (N.ltb_spec x y), (N.ltb_spec y x), (N.eqb_spec x y),
    (N.eqb_spec y x); try done; try lia.
  intros. subst. f_equal. by apply IH.
Qed.

(** ** Stable sorting *)

Section sort_facts.
Context {A : Type} (before : A → A → bool).

Lemma insert_by_perm x l : insert_by before x l ≡ₚ x :: l.
Proof.
  induction l as [|y l IH]; simpl; [done|].
  destruct (before x y); [done|]. by rewrite IH, Permutation_swap.
Qed.

Lemma sort_by_perm l : sort_by before l ≡ₚ l.
Proof.
  induction l as [|x l IH]; simpl; [done|].
  by rewrite insert_by_perm, IH.
Qed.

Hypothesis before_total : ∀ x y, before x y = false → before y x = true.
Hypothesis before_trans : ∀ x y z,
  before x y = true → before y z = true → before x z = true.

Lemma then_by_before R x y : then_by before R x y → before x y = true.
Proof. intros [H|(H & _)]; auto. Qed.

Lemma insert_by_sorted R x l :
  StronglySorted (then_by before R) l → Forall (R x) l →
  StronglySorted (then_by before R) (insert_by before x l).
Proof.
  induction 1 as [|y l Hl IH Hy]; intros HR; simpl.
  - repeat constructor.
  - apply Forall_cons in HR as [HRy HRl].
    destruct (before x y) eqn:Exy.
    + constructor; [by constructor|]. constructor.
      * destruct (before y x) eqn:Eyx; [right|left]; done.
      * rewrite Forall_forall in Hy, HRl |- *. intros w Hw.
        destruct (before w x) eqn:Ewx; [right|by left].
        split_and!; [|done|by apply HRl].
        eapply before_trans; [done|]. eapply then_by_before, Hy, Hw.
    + constructor; [by apply IH|].
      rewrite insert_by_perm. constructor; [by left | done].
Qed.

Lemma sort_by_stable R l :
  StronglySorted R l → StronglySorted (then_by before R) (sort_by before l).
Proof.
  induction 1 as [|x l Hl IH Hx]; simpl; [constructor|].
  apply insert_by_sorted; [done|]. by rewrite sort_by_perm.
Qed.
End sort_facts.

Lemma StronglySorted_any {A} (l : list A) : StronglySorted (λ _ _, True) l.
Proof.
  induction l; constructor; [done|]. by apply Forall_forall.
Qed.

Lemma StronglySorted_weaken {A} (R S : A → A → Prop) l :
  (∀ x y, x ∈ l → y ∈ l → R x y → S x y) →
  StronglySorted R l → StronglySorted S l.
Proof.
  intros HRS Hl. induction Hl as [|x l Hl IH Hx]; constructor.
  - apply IH. intros ????. apply HRS; by right.
  - rewrite Forall_forall in Hx |- *. intros y Hy.
    apply HRS; [left | by right | by apply Hx].
Qed.

Lemma StronglySorted_NoDup_fmap {A B} (f : A → B) (R : A → A → Prop) l :
  StronglySorted R l → NoDup (f <$> l) →
  StronglySorted (λ x y, R x y ∧ f x ≠ f y) l.
Proof.
  induction 1 as [|x l Hl IH Hx]; csimpl; [constructor|].
  rewrite NoDup_cons. intros [Hfx Hnd]. constructor; [by apply IH|].
  rewrite Forall_forall in Hx |- *. intros y Hy. split; [by apply Hx|].
  intros E. apply Hfx. rewrite E. apply list_elem_of_fmap. by exists y.
Qed.

Lemma StronglySorted_fmap_2 {A B} (f : A → B) (R : B → B → Prop) l :
  StronglySorted (λ x y, R (f x) (f y)) l → StronglySorted R (f <$> l).
Proof.
  induction 1 as [|x l Hl IH Hx]; csimpl; constructor; [done|].
  by apply Forall_fmap.
Qed.

Lemma StronglySorted_app_l {A} (R : A → A → Prop) l1 l2 :
  StronglySorted R (l1 ++ l2) → StronglySorted R l1.
Proof.
  induction l1 as [|x l1 IH]; simpl; [constructor|].
  intros H. apply StronglySorted_inv in H as [H1 H2].
  constructor; [by apply IH|]. by apply Forall_app in H2 as [? _].
Qed.

(** ** Counter *)

Lemma Counter_getitem_setitem (c : Counter) k v t :
  Counter_getitem (dict_setitem c k v) t =
    if decide (t = k) then v else Counter_getitem c t.
Proof.
  unfold Counter_getitem. rewrite dict_get_setitem. by case_decide.
Qed.

Lemma occurrences_cons t x l :
  occurrences t (x :: l) =
    (if decide (x = t) then 1 else 0) + occurrences t l.
Proof.
  unfold occurrences. rewrite filter_cons.
  case_decide; simpl length; lia.
Qed.

Lemma occurrences_pos t l : 0 < occurrences t l ↔ t ∈ l.
Proof.
  induction l as [|x l IH].
  - split; [by cbv | intros H; by apply elem_of_nil in H].
  - rewrite occurrences_cons, elem_of_cons.
    assert (0 ≤ occurrences t l) by (unfold occurrences; lia).
    case_decide as E.
    + split; [auto | lia].
    + rewrite Z.add_0_l, IH. split; [auto | by intros [->|?]].
Qed.

Lemma Counter_update_getitem l : ∀ (c : Counter) t,
  Counter_getitem (Counter_update c l) t = Counter_getitem c t + occurrences t l.
Proof.
  unfold Counter_update.
  induction l as [|x l IH]; intros c t; simpl.
  - unfold occurrences. simpl. lia.
  - rewrite IH, Counter_getitem_setitem, occurrences_cons.
    destruct (decide (t = x)) as [->|Hne].
    + rewrite decide_True by done. lia.
    + rewrite decide_False by done. lia.
Qed.

Lemma Counter_update_wf l : ∀ c : Counter, dict_wf c → dict_wf (Counter_update c l).
Proof.
  unfold Counter_update.
  induction l as [|x l IH]; intros c Hc; simpl; [done|].
  by apply IH, dict_setitem_wf.
Qed.

Lemma Counter_update_keys l : ∀ (c : Counter) t,
  t ∈ (Counter_update c l).*1 ↔ t ∈ c.*1 ∨ t ∈ l.
Proof.
  unfold Counter_update.
  induction l as [|x l IH]; intros c t; simpl.
  - split; [auto | intros [?|H]; [done | by apply elem_of_nil in H]].
  - rewrite IH, dict_setitem_keys, elem_of_cons.
    case_decide as Hx.
    + split; [intros [?|?]; auto | intros [?|[->|?]]; auto].
    + rewrite elem_of_app, list_elem_of_singleton. tauto.
Qed.

Lemma Counter_update_app (c : Counter) l1 l2 :
  Counter_update c (l1 ++ l2) = Counter_update (Counter_update c l1) l2.
Proof. unfold Counter_update. by rewrite foldl_app. Qed.

(** ** make_vocab *)

Section make_vocab_facts.
Variable preprocess_caption : str → option str → list str.
Abbreviation make_vocab' := (Vocab.make_vocab preprocess_caption).

Lemma make_vocab_freqs tokenizer json_dirs :
  (make_vocab' tokenizer json_dirs).1 =
    Counter_update [] (concat (captions preprocess_caption tokenizer json_dirs)).
Proof.
  unfold Vocab.make_vocab, captions.
  match goal with |- (foldl ?f _ _).1 = _ => set (outer := f) end.
  enough (∀ st, (foldl outer st json_dirs).1 = Counter_update st.1
    (concat ((λ ann, preprocess_caption ann tokenizer) <$> concat json_dirs)))
    as G by apply (G ([], 0%nat)).
  induction json_dirs as [|json_data json_dirs IH]; intros st; [done|].
  cbn [foldl concat]. rewrite IH, fmap_app, concat_app, Counter_update_app.
  f_equal. unfold outer. clear.
  match goal with |- (foldl ?f _ _).1 = _ => set (step := f) end.
  revert st. induction json_data as [|ann json_data IH]; intros [c m]; [done|].
  rewrite fmap_cons. cbn [foldl concat]. rewrite Counter_update_app.
  by rewrite IH.
Qed.

Lemma make_vocab_wf tokenizer json_dirs :
  dict_wf (make_vocab' tokenizer json_dirs).1.
Proof. rewrite make_vocab_freqs. apply Counter_update_wf, NoDup_nil_2. Qed.
End make_vocab_facts.

(** ** enumerate *)

Lemma enumerate_from_keys {A} (l : list A) : ∀ i,
  (enumerate_from i l).*1 = Z.of_nat <$> seq i (length l).
Proof. induction l as [|x l IH]; intros i; csimpl; [done|]. by rewrite IH. Qed.

Lemma enumerate_from_values {A} (l : list A) : ∀ i, (enumerate_from i l).*2 = l.
Proof. induction l as [|x l IH]; intros i; csimpl; [done|]. by rewrite IH. Qed.

Lemma enumerate_wf {A} (l : list A) : NoDup (enumerate l).*1.
Proof.
  unfold enumerate. rewrite enumerate_from_keys.
  apply NoDup_fmap_2; [apply Nat2Z.inj' | apply NoDup_seq].
Qed.

Lemma elem_of_enumerate_from {A} (l : list A) i x : ∀ k,
  (i, x) ∈ enumerate_from k l ↔
    ∃ n : nat, i = Z.of_nat (k + n) ∧ l !! n = Some x.
Proof.
  induction l as [|y l IH]; intros k; simpl.
  - split; [intros H; by apply elem_of_nil in H | by intros (n & _ & ?)].
  - rewrite elem_of_cons, IH. split.
    + intros [E|(n & -> & Hn)].
      * injection E as -> ->. exists 0%nat. split; [f_equal; lia | done].
      * exists (S n). split; [f_equal; lia | done].
    + intros ([|n] & -> & Hn); simpl in Hn.
      * left. injection Hn as ->. do 2 f_equal. lia.
      * right. exists n. split; [f_equal; lia | done].
Qed.

Lemma dict_get_enumerate {A} (l : list A) (n : nat) :
  dict_get (enumerate l) (Z.of_nat n) = l !! n.
Proof.
  destruct (l !! n) as [x|] eqn:E.
  - apply dict_get_elem; [apply enumerate_wf|].
    apply elem_of_enumerate_from. by exists n.
  - apply dict_get_None. intros Hin.
    apply list_elem_of_fmap in Hin as ([i x] & Hi & Hin). simpl in Hi. subst i.
    apply elem_of_enumerate_from in Hin as (m & Hm & Hx). simpl in Hm.
    apply Nat2Z.inj in Hm as ->. congruence.
Qed.

(** ** The sorted words and the loop that appends them *)

Lemma words_and_frequencies_perm (c : Counter) :
  Vocab.words_and_frequencies c ≡ₚ c.
Proof. unfold Vocab.words_and_frequencies. by rewrite !sort_by_perm. Qed.

Lemma words_and_frequencies_sorted (c : Counter) :
  dict_wf c → StronglySorted pair_order (Vocab.words_and_frequencies c).
Proof.
  intros Hc. unfold Vocab.words_and_frequencies.
  set (by_token := λ a b : str * Z, str_leb a.1 b.1).
  set (by_freq := λ a b : str * Z, b.2 <=? a.2).
  assert (StronglySorted (λ x y, str_lt x.1 y.1) (sort_by by_token c)) as H1.
  { eapply StronglySorted_weaken; last first.
    - apply (StronglySorted_NoDup_fmap fst).
      + apply (sort_by_stable by_token) with (R := λ _ _, True).
        * intros x y. apply str_leb_total.
        * intros x y z. apply str_leb_trans.
        * apply StronglySorted_any.
      + by rewrite sort_by_perm.
    - intros x y _ _ [Hxy Hne]. split; [|done].
      apply then_by_before in Hxy; [done|].
      intros ??. apply str_leb_total. }
  eapply StronglySorted_weaken; last first.
  - apply (sort_by_stable by_freq); [| |exact H1]; unfold by_freq.
    + intros x y ?. apply Z.leb_le. apply Z.leb_gt in H. lia.
    + intros x y z ?%Z.leb_le ?%Z.leb_le. apply Z.leb_le. lia.
  - intros x y _ _ [H|(Hxy & Hyx & HR)]; unfold by_freq in *.
    + left. by apply Z.leb_gt in H.
    + right. apply Z.leb_le in Hxy, Hyx. split; [lia | done].
Qed.

Lemma append_words_spec min_freq max_size waf : ∀ itos,
  ∃ pre suf, waf = pre ++ suf ∧
    Vocab.append_words min_freq max_size waf itos = itos ++ pre.*1 ∧
    Forall (λ wf, min_freq ≤ wf.2) pre.
Proof.
  induction waf as [|[word freq] waf IH]; intros itos; simpl.
  - exists [], []. csimpl. by rewrite app_nil_r.
  - destruct (_ || _) eqn:E.
    + exists [], ((word, freq) :: waf). csimpl. by rewrite app_nil_r.
    + apply orb_false_elim in E as [E _]. apply Z.ltb_ge in E.
      destruct (IH (itos ++ [word])) as (pre & suf & -> & -> & Hpre).
      exists ((word, freq) :: pre), suf. csimpl.
      rewrite <- app_assoc. split_and!; [done | done |]. by constructor.
Qed.

Section itos_list_facts.
Variable preprocess_caption : str → option str → list str.

Lemma freqs_getitem tokenizer json_dirs w f :
  (w, f) ∈ (Vocab.make_vocab preprocess_caption tokenizer json_dirs).1 →
  Counter_getitem (Vocab.make_vocab preprocess_caption tokenizer json_dirs).1 w = f.
Proof.
  intros Hin. unfold Counter_getitem.
  by rewrite (dict_get_elem _ w f (make_vocab_wf _ _ _) Hin).
Qed.

Lemma freqs_key tokenizer json_dirs w :
  w ∈ (Vocab.make_vocab preprocess_caption tokenizer json_dirs).1.*1 ↔
  w ∈ concat (captions preprocess_caption tokenizer json_dirs).
Proof.
  rewrite make_vocab_freqs, Counter_update_keys. split; [|auto].
  intros [H|H]; [by apply elem_of_nil in H | done].
Qed.

Lemma itos_list_spec json_dirs min_freq bos eos pad unk tokenizer :
  let freqs := (Vocab.make_vocab preprocess_caption tokenizer json_dirs).1 in
  ∃ rest : list str,
    itos_list preprocess_caption json_dirs min_freq bos eos pad unk tokenizer
      = [pad; bos; eos; unk] ++ rest ∧
    StronglySorted (word_order freqs) rest ∧
    NoDup rest ∧
    Forall (λ w, Z.max min_freq 1 ≤ Counter_getitem freqs w ∧
                 w ∈ concat (captions preprocess_caption tokenizer json_dirs))
      rest.
Proof.
  intros freqs. unfold itos_list. fold freqs.
  destruct (append_words_spec (Z.max min_freq 1) None
    (Vocab.words_and_frequencies freqs) [pad; bos; eos; unk])
    as (pre & suf & Hwaf & -> & Hpre).
  assert (∀ x, x ∈ pre → x ∈ freqs) as Hsub.
  { intros x Hx. rewrite <- (words_and_frequencies_perm freqs), Hwaf.
    apply elem_of_app. by left. }
  assert (∀ x, x ∈ pre → Counter_getitem freqs x.1 = x.2) as Hget.
  { intros [w f] Hx. by apply freqs_getitem, Hsub. }
  exists pre.*1. split_and!; [done | | |].
  - apply StronglySorted_fmap_2.
    eapply StronglySorted_weaken; last first.
    + eapply StronglySorted_app_l. rewrite <- Hwaf.
      apply words_and_frequencies_sorted, make_vocab_wf.
    + intros x y Hx Hy. unfold pair_order, word_order.
      by rewrite (Hget x Hx), (Hget y Hy).
  - assert (NoDup (pre ++ suf).*1) as Hnd.
    { rewrite <- Hwaf, words_and_frequencies_perm. apply make_vocab_wf. }
    rewrite fmap_app in Hnd. by apply NoDup_app in Hnd as [? _].
  - apply Forall_fmap. rewrite Forall_forall in Hpre |- *.
    intros x Hx. simpl. rewrite (Hget x Hx). split; [by apply Hpre|].
    apply freqs_key, list_elem_of_fmap. exists x. split; [done | by apply Hsub].
Qed.
End itos_list_facts.

(** ** A dict and its reverse dict *)

Section reverse_dict.
Context {K V : Type} `{EqDecision K, EqDecision V}.
Implicit Types (d : dict K V).

Lemma elem_of_swap d k v : (v, k) ∈ swap <$> d ↔ (k, v) ∈ d.
Proof.
  rewrite list_elem_of_fmap. split.
  - intros ([k' v'] & E & Hin). by injection E as -> ->.
  - intros Hin. by exists (k, v).
Qed.

Lemma swap_keys d : (swap <$> d).*1 = d.*2.
Proof. by rewrite <- list_fmap_compose. Qed.

(** Every entry of the reverse dict is an entry of the dict. *)
Lemma reverse_dict_sound d k v :
  dict_wf d →
  dict_get (dict_of_items (swap <$> d)) v = Some k → dict_get d k = Some v.
Proof.
  intros Hd E. apply dict_get_elem; [done|].
  by apply elem_of_swap, dict_of_items_elem.
Qed.

(** The converse needs the values to be pairwise distinct. *)
Lemma reverse_dict_complete d k v :
  NoDup d.*2 →
  dict_get d k = Some v → dict_get (dict_of_items (swap <$> d)) v = Some k.
Proof.
  intros Hd E. rewrite dict_of_items_NoDup by (by rewrite swap_keys).
  apply dict_get_elem; [unfold dict_wf; by rewrite swap_keys|].
  by apply elem_of_swap, dict_get_Some_elem.
Qed.

Lemma dict_of_items_keys (items : list (K * V)) k :
  k ∈ (dict_of_items items).*1 ↔ k ∈ items.*1.
Proof.
  unfold dict_of_items.
  enough (∀ d, k ∈ (foldl (λ d kv, dict_setitem d kv.1 kv.2) d items).*1
    ↔ k ∈ d.*1 ∨ k ∈ items.*1) as G.
  { rewrite G. split; [intros [H|?]; [by apply elem_of_nil in H | done] | auto]. }
  induction items as [|[k0 v0] items IH]; intros d; csimpl.
  - split; [auto | intros [?|H]; [done | by apply elem_of_nil in H]].
  - rewrite IH, dict_setitem_keys, elem_of_cons. case_decide as Hin.
    + split; [intros [?|?]; auto | intros [?|[->|?]]; auto].
    + rewrite elem_of_app, list_elem_of_singleton. tauto.
Qed.
End reverse_dict.

(** ** join, strip, split *)

Lemma lstrip_nonspace c x : isspace c = false → lstrip (c :: x) = c :: x.
Proof. intros Hc. simpl. by rewrite Hc. Qed.

Lemma rstrip_nonspace c x : isspace c = false → rstrip (x ++ [c]) = x ++ [c].
Proof.
  intros Hc. unfold rstrip. rewrite reverse_app, reverse_singleton. simpl.
  by rewrite Hc, reverse_cons, reverse_involutive.
Qed.

Lemma plain_token_first w :
  plain_token w → ∃ c x, w = c :: x ∧ isspace c = false.
Proof.
  intros [Hne Hw]. destruct w as [|c x]; [done|].
  apply Forall_cons in Hw as [Hc _]. eauto.
Qed.

Lemma plain_token_last w :
  plain_token w → ∃ x c, w = x ++ [c] ∧ isspace c = false.
Proof.
  intros [Hne Hw]. destruct w as [|c x _] using rev_ind; [done|].
  pose proof (proj1 (Forall_app (λ c, isspace c = false) x [c]) Hw) as [_ Hc].
  apply (proj1 (Forall_singleton _ c)) in Hc. eauto.
Qed.

Lemma join_first sep w ws :
  Forall plain_token (w :: ws) →
  ∃ c x, join sep (w :: ws) = c :: x ∧ isspace c = false.
Proof.
  intros Hws. apply Forall_cons in Hws as [Hw _].
  apply plain_token_first in Hw as (c & x & -> & Hc).
  destruct ws as [|w2 ws]; simpl; eauto.
Qed.

Lemma join_last sep ws : ∀ w,
  Forall plain_token (w :: ws) →
  ∃ x c, join sep (w :: ws) = x ++ [c] ∧ isspace c = false.
Proof.
  induction ws as [|w2 ws IH]; intros w Hws.
  - apply Forall_cons in Hws as [Hw _]. by apply plain_token_last.
  - apply Forall_cons in Hws as [_ Hws].
    destruct (IH w2 Hws) as (x & c & E & Hc).
    exists (w ++ sep ++ x), c. split; [|done].
    change (join sep (w :: w2 :: ws)) with (w ++ sep ++ join sep (w2 :: ws)).
    by rewrite E, <- !app_assoc.
Qed.

Lemma strip_join sep ws :
  Forall plain_token ws → strip (join sep ws) = join sep ws.
Proof.
  intros Hws. destruct ws as [|w ws]; [done|]. unfold strip.
  destruct (join_first sep w ws Hws) as (c & x & E & Hc).
  rewrite E, lstrip_nonspace, <- E by done.
  destruct (join_last sep ws w Hws) as (y & d & -> & Hd).
  by apply rstrip_nonspace.
Qed.

Lemma split_from_word w : ∀ word x,
  Forall (λ c, isspace c = false) w →
  split_from word (w ++ x) = split_from (reverse w ++ word) x.
Proof.
  induction w as [|c w IH]; intros word x Hw; [done|].
  apply Forall_cons in Hw as [Hc Hw]. simpl. rewrite Hc, IH by done.
  by rewrite reverse_cons, <- app_assoc.
Qed.

Lemma split_join ws :
  Forall plain_token ws → split (join [32%N] ws) = ws.
Proof.
  unfold split. induction ws as [|w ws IH]; intros Hws; [done|].
  apply Forall_cons in Hws as [[Hne Hw] Hws].
  assert (reverse w ≠ []) as Hrev.
  { intros E. apply Hne. by rewrite <- (reverse_involutive w), E. }
  destruct ws as [|w2 ws].
  - simpl. rewrite <- (app_nil_r w), split_from_word, app_nil_r by done.
    simpl. destruct (reverse w) eqn:E; [done|].
    by rewrite <- E, reverse_involutive, app_nil_r.
  - change (join [32%N] (w :: w2 :: ws))
      with (w ++ [32%N] ++ join [32%N] (w2 :: ws)).
    rewrite split_from_word, app_nil_r by done.
    change ([32%N] ++ ?x) with (32%N :: x). cbn [split_from].
    change (isspace 32) with true. cbv iota.
    rewrite IH by done. destruct (reverse w) eqn:E; [done|].
    by rewrite <- E, reverse_involutive.
Qed.

(** ** decode_caption *)

Lemma decode_words_no_eos self vec toks :
  tokens_of self vec toks → Vocab.eos_idx self ∉ vec →
  ∀ words, Vocab.decode_words self words vec =
    Ok (words ++ filter (λ t, t ∉ Vocab.specials self) toks).
Proof.
  induction 1 as [|idx tok vec toks Htok _ IH]; intros Heos words; simpl.
  - by rewrite app_nil_r.
  - apply not_elem_of_cons in Heos as [Hne Heos].
    unfold dict_getitem. rewrite Htok. simpl.
    rewrite bool_decide_eq_false_2 by done.
    rewrite IH by done. rewrite filter_cons.
    destruct (decide (tok ∉ Vocab.specials self)).
    + rewrite bool_decide_eq_true_2 by done. by rewrite <- app_assoc.
    + by rewrite bool_decide_eq_false_2 by done.
Qed.

Lemma decode_words_stop self pre toks e suf :
  tokens_of self pre toks → Vocab.eos_idx self ∉ pre →
  dict_get (Vocab.itos self) (Vocab.eos_idx self) = Some e →
  ∀ words, Vocab.decode_words self words (pre ++ Vocab.eos_idx self :: suf) =
    Ok (words ++ filter (λ t, t ∉ Vocab.specials self) (toks ++ [e])).
Proof.
  induction 1 as [|idx tok vec toks Htok _ IH]; intros Heos He words; simpl.
  - unfold dict_getitem. rewrite He. simpl.
    rewrite (bool_decide_eq_true_2 (_ = _)) by done.
    rewrite filter_cons, filter_nil. destruct (decide (e ∉ Vocab.specials self)).
    + by rewrite bool_decide_eq_true_2 by done.
    + rewrite bool_decide_eq_false_2 by done. by rewrite app_nil_r.
  - apply not_elem_of_cons in Heos as [Hne Heos].
    unfold dict_getitem. rewrite Htok. simpl.
    rewrite (bool_decide_eq_false_2 (_ = _)) by done.
    rewrite IH by done. rewrite filter_cons.
    destruct (decide (tok ∉ Vocab.specials self)).
    + rewrite bool_decide_eq_true_2 by done. by rewrite <- app_assoc.
    + by rewrite bool_decide_eq_false_2 by done.
Qed.

Lemma decode_words_specials self vec :
  Forall (λ idx, ∃ tok, dict_get (Vocab.itos self) idx = Some tok
                        ∧ tok ∈ Vocab.specials self) vec →
  ∀ words, Vocab.decode_words self words vec = Ok words.
Proof.
  induction 1 as [|idx vec (tok & Htok & Hsp) _ IH]; intros words; simpl; [done|].
  unfold dict_getitem. rewrite Htok. simpl.
  rewrite (bool_decide_eq_false_2 (_ ∉ _)) by (intros Hn; by apply Hn).
  by case_bool_decide.
Qed.

Lemma mapM_Ok {A B} (f : A → result B) l k :
  Forall2 (λ x y, f x = Ok y) l k → mapM f l = Ok k.
Proof.
  induction 1 as [|x y l k Hxy _ IH]; simpl; [done|]. by rewrite Hxy, IH.
Qed.

(** ** The constructed vocabulary *)

Section vocab.
Variable preprocess_caption : str → option str → list str.
Variable from_pretrained : str → result TokenEncoder.t.

Abbreviation init := (Vocab.__init__ preprocess_caption from_pretrained).
Abbreviation all_tokens tokenizer json_dirs :=
  (concat (captions preprocess_caption tokenizer json_dirs)).

Lemma init_itos_wf json_dirs max_size min_freq bos eos pad plm unk tokenizer v :
  init json_dirs max_size min_freq bos eos pad plm unk tokenizer = Ok v →
  dict_wf (Vocab.itos v).
Proof.
  intros H. apply init_Ok in H as (_ & _ & _ & _ & _ & _ & _ & _ & _ & H).
  destruct plm as [name|].
  - destruct H as (te & _ & _ & _ & _ & _ & _ & ->). apply dict_of_items_wf.
  - destruct H as (_ & _ & _ & _ & -> & _). apply dict_of_items_wf.
Qed.

(** Without a pretrained model [itos] is the enumeration of the list. *)
Lemma init_itos_enumerate json_dirs max_size min_freq bos eos pad unk tokenizer v :
  init json_dirs max_size min_freq bos eos pad None unk tokenizer = Ok v →
  Vocab.itos v = enumerate
    (itos_list preprocess_caption json_dirs min_freq bos eos pad unk tokenizer).
Proof.
  intros H. apply init_Ok in H as (_ & _ & _ & _ & _ & _ & _ & _ & _ & H).
  destruct H as (_ & _ & _ & _ & -> & _).
  apply dict_of_items_NoDup, enumerate_wf.
Qed.

(** Without [max_size] and without a pretrained model, lines 44-96 raise
    nothing: the four lookups of lines 91-94 find their keys. *)
Lemma init_returns json_dirs min_freq bos eos pad unk tokenizer :
  ∃ v, Vocab.__init__ preprocess_caption from_pretrained
         json_dirs None min_freq bos eos pad None unk tokenizer = Ok v.
Proof.
  unfold Vocab.__init__. simpl.
  destruct (Vocab.make_vocab preprocess_caption tokenizer json_dirs)
    as [freqs mcl].
  destruct (append_words_spec (Z.max min_freq 1) None
    (Vocab.words_and_frequencies freqs) [pad; bos; eos; unk])
    as (pre & suf & _ & -> & _).
  rewrite (dict_of_items_NoDup (enumerate _)) by apply enumerate_wf.
  set (stoi := dict_of_items _).
  assert (∀ w, w ∈ [pad; bos; eos; unk] →
    ∃ i, dict_getitem stoi w = Ok i) as Hsp.
  { intros w Hw. unfold dict_getitem.
    destruct (dict_get stoi w) as [i|] eqn:E; [by exists i|].
    apply dict_get_None in E. destruct E. unfold stoi.
    apply dict_of_items_keys. rewrite swap_keys.
    unfold enumerate. rewrite enumerate_from_values.
    apply elem_of_app. by left. }
  destruct (Hsp pad) as [ip Hp]; [repeat constructor|].
  destruct (Hsp bos) as [ib Hb]; [repeat constructor|].
  destruct (Hsp eos) as [ie He]; [repeat constructor|].
  destruct (Hsp unk) as [iu Hu]; [repeat constructor|].
  rewrite Hp. cbn [mbind result_bind]. rewrite Hb. cbn [mbind result_bind].
  rewrite He. cbn [mbind result_bind]. rewrite Hu. cbn [mbind result_bind].
  eauto.
Qed.

(** [itos[stoi[t]] == t] *)
Lemma init_stoi_itos json_dirs max_size min_freq bos eos pad plm unk tokenizer v :
  init json_dirs max_size min_freq bos eos pad plm unk tokenizer = Ok v →
  tokenizer_ok from_pretrained plm →
  ∀ t i, dict_get (Vocab.stoi v) t = Some i → dict_get (Vocab.itos v) i = Some t.
Proof.
  intros H Hok t i. pose proof (init_itos_wf _ _ _ _ _ _ _ _ _ _ H) as Hwf.
  apply init_Ok in H as (_ & _ & _ & _ & _ & _ & _ & _ & _ & H).
  destruct plm as [name|].
  - destruct H as (te & Hte & _ & _ & _ & _ & Hstoi & ->).
    apply reverse_dict_complete. rewrite Hstoi.
    by destruct (Hok name te eq_refl Hte).
  - destruct H as (_ & _ & _ & _ & _ & ->). by apply reverse_dict_sound.
Qed.

(** [stoi[itos[i]] == i] *)
Lemma init_itos_stoi json_dirs max_size min_freq bos eos pad plm unk tokenizer v :
  init json_dirs max_size min_freq bos eos pad plm unk tokenizer = Ok v →
  tokenizer_ok from_pretrained plm →
  (plm = None → NoDup [pad; bos; eos; unk] ∧
     Forall (λ s, s ∉ all_tokens tokenizer json_dirs) [pad; bos; eos; unk]) →
  ∀ i t, dict_get (Vocab.itos v) i = Some t → dict_get (Vocab.stoi v) t = Some i.
Proof.
  intros H Hok Hsp i t. destruct plm as [name|].
  - apply init_Ok in H as (_ & _ & _ & _ & _ & _ & _ & _ & _ & H).
    destruct H as (te & Hte & _ & _ & _ & _ & Hstoi & ->).
    apply reverse_dict_sound. rewrite Hstoi.
    by destruct (Hok name te eq_refl Hte).
  - pose proof (init_itos_enumerate _ _ _ _ _ _ _ _ _ H) as Hitos.
    apply init_Ok in H as (_ & _ & _ & _ & _ & _ & _ & _ & _ & H).
    destruct H as (_ & _ & _ & _ & _ & ->).
    apply reverse_dict_complete. rewrite Hitos.
    unfold enumerate. rewrite enumerate_from_values.
    destruct (itos_list_spec preprocess_caption json_dirs min_freq bos eos
      pad unk tokenizer) as (rest & -> & _ & Hnd & Hrest).
    destruct (Hsp eq_refl) as [Hnd' Hout].
    apply NoDup_app. split_and!; [done | | done].
    intros s Hs Hs'. rewrite Forall_forall in Hout, Hrest.
    apply (Hout s Hs). by apply Hrest.
Qed.

(** C1 (as amended): after every construction that returns,
    [itos[stoi[t]] == t] for every token [t] of [stoi] and
    [stoi[itos[i]] == i] for every index [i] of [itos], provided that,
    without a pretrained model, the four special-token names are pairwise
    distinct and none of them is a token of a caption, and that, with a
    pretrained model, its vocabulary gives distinct tokens distinct
    indices. *)
Theorem stoi_itos_inverse
    json_dirs max_size min_freq bos eos pad plm unk tokenizer v :
  init json_dirs max_size min_freq bos eos pad plm unk tokenizer = Ok v →
  tokenizer_ok from_pretrained plm →
  (plm = None → NoDup [pad; bos; eos; unk] ∧
     Forall (λ s, s ∉ all_tokens tokenizer json_dirs) [pad; bos; eos; unk]) →
  (∀ i t, dict_get (Vocab.itos v) i = Some t →
          dict_get (Vocab.stoi v) t = Some i) ∧
  (∀ t i, dict_get (Vocab.stoi v) t = Some i →
          dict_get (Vocab.itos v) i = Some t).
Proof.
  intros H Hok Hsp. split.
  - by eapply init_itos_stoi.
  - by eapply init_stoi_itos.
Qed.

(** The cached indices are the entries of [stoi]. *)
Lemma init_index_of json_dirs max_size min_freq bos eos pad plm unk tokenizer v :
  init json_dirs max_size min_freq bos eos pad plm unk tokenizer = Ok v →
  Vocab.index_of v (Vocab.bos_token v) = Vocab.bos_idx v ∧
  Vocab.index_of v (Vocab.eos_token v) = Vocab.eos_idx v.
Proof.
  intros H. apply init_Ok in H as (_ & _ & _ & _ & _ & _ & Hb & He & _).
  unfold Vocab.index_of. by rewrite Hb, He.
Qed.

(** C2 (as amended): for every token list [T] with
    [len(T) + 2 <= max_caption_length], [encode_caption] returns a
    sequence of exactly [max_caption_length] integers: the bos index at
    position 0, at positions [1..len(T)] the index of each token in
    order ([stoi[t]], or the unk index for a token absent from [stoi]),
    then the eos index, and the padding index at every position after
    it. *)
Theorem encode_caption_layout
    json_dirs max_size min_freq bos eos pad plm unk tokenizer v T :
  init json_dirs max_size min_freq bos eos pad plm unk tokenizer = Ok v →
  (length T + 2 ≤ Vocab.max_caption_length v)%nat →
  ∃ vec, Vocab.encode_caption v T = Ok vec ∧
    length vec = Vocab.max_caption_length v ∧
    vec !! 0%nat = Some (Vocab.bos_idx v) ∧
    (∀ k t, T !! k = Some t →
       vec !! S k = Some (default (Vocab.unk_idx v) (dict_get (Vocab.stoi v) t))) ∧
    vec !! S (length T) = Some (Vocab.eos_idx v) ∧
    (∀ j, (length T + 2 ≤ j < Vocab.max_caption_length v)%nat →
       vec !! j = Some (Vocab.padding_idx v)).
Proof.
  intros H Hlen. apply init_index_of in H as [Hb He].
  exists (encoding v T). rewrite encode_caption_eq, decide_True by done.
  unfold encoding. rewrite Hb, He. split_and!; [done | | done | | |].
  - rewrite !length_app, length_fmap, length_replicate. simpl. lia.
  - intros k t Hk. simpl. rewrite lookup_app_l.
    + rewrite list_lookup_fmap, Hk. simpl. unfold Vocab.index_of.
      by destruct (dict_get (Vocab.stoi v) t).
    + rewrite length_fmap. by eapply lookup_lt_Some.
  - simpl. rewrite lookup_app_r by (by rewrite length_fmap).
    by rewrite length_fmap, Nat.sub_diag.
  - intros j Hj. destruct j as [|j]; [lia|]. simpl.
    rewrite lookup_app_r by (rewrite length_fmap; lia).
    rewrite length_fmap. destruct (j - length T)%nat as [|n] eqn:En; [lia|].
    simpl. apply lookup_replicate_2. lia.
Qed.

(** C4 (as amended): [encode_caption] raises no exception when
    [len(T) + 2 <= max_caption_length]; when [len(T) + 2] exceeds
    [max_caption_length] it raises [IndexError], at the first position
    past the end of the tensor. *)
Theorem encode_caption_raises (v : Vocab.t) (T : list str) :
  ((length T + 2 ≤ Vocab.max_caption_length v)%nat →
     ∃ vec, Vocab.encode_caption v T = Ok vec) ∧
  ((Vocab.max_caption_length v < length T + 2)%nat →
     Vocab.encode_caption v T = Raise IndexError).
Proof.
  rewrite encode_caption_eq. split; intros Hlen.
  - rewrite decide_True by done. eauto.
  - rewrite decide_False by lia. done.
Qed.

(** C5: without a pretrained model, [itos] begins with the four special
    tokens in the order padding, bos, eos, unk at the indices 0 to 3,
    and the entries after them are in descending order of frequency,
    those of equal frequency in ascending order of the token. *)
Theorem itos_specials_then_sorted
    json_dirs max_size min_freq bos eos pad unk tokenizer v :
  init json_dirs max_size min_freq bos eos pad None unk tokenizer = Ok v →
  dict_get (Vocab.itos v) 0 = Some (Vocab.padding_token v) ∧
  dict_get (Vocab.itos v) 1 = Some (Vocab.bos_token v) ∧
  dict_get (Vocab.itos v) 2 = Some (Vocab.eos_token v) ∧
  dict_get (Vocab.itos v) 3 = Some (Vocab.unk_token v) ∧
  ∃ rest : list str,
    Vocab.itos v = enumerate (Vocab.specials v ++ rest) ∧
    StronglySorted (word_order (Vocab.freqs v)) rest.
Proof.
  intros H. pose proof (init_itos_enumerate _ _ _ _ _ _ _ _ _ H) as Hitos.
  apply init_Ok in H
    as (_ & _ & Hfreqs & _ & Hsp & _ & _ & _ & _ & <- & <- & <- & <- & _).
  destruct (itos_list_spec preprocess_caption json_dirs min_freq
    (Vocab.bos_token v) (Vocab.eos_token v) (Vocab.padding_token v)
    (Vocab.unk_token v) tokenizer) as (rest & Hl & Hsorted & _).
  rewrite Hl in Hitos. rewrite Hitos, Hsp, Hfreqs.
  split_and!; [done | done | done | done |]. by exists rest.
Qed.

(** C6: without a pretrained model, no token other than the four
    specials whose frequency is below the threshold [max(min_freq, 1)]
    is in [stoi]. *)
Theorem rare_token_absent
    json_dirs max_size min_freq bos eos pad unk tokenizer v t :
  init json_dirs max_size min_freq bos eos pad None unk tokenizer = Ok v →
  t ∉ Vocab.specials v →
  Counter_getitem (Vocab.freqs v) t < Z.max min_freq 1 →
  dict_get (Vocab.stoi v) t = None.
Proof.
  intros H Hsp Hfreq. pose proof (init_itos_enumerate _ _ _ _ _ _ _ _ _ H) as Hitos.
  apply init_Ok in H
    as (_ & _ & Hfreqs & _ & Hspecials & _ & _ & _ & _ & <- & <- & <- & <- & _ & Hstoi).
  destruct (dict_get (Vocab.stoi v) t) as [i|] eqn:E; [exfalso | done].
  rewrite Hstoi in E. apply dict_of_items_elem in E.
  apply (proj1 (elem_of_swap _ _ _)) in E.
  rewrite Hitos in E. apply elem_of_enumerate_from in E as (n & _ & Hn).
  apply list_elem_of_lookup_2 in Hn.
  destruct (itos_list_spec preprocess_caption json_dirs min_freq
    (Vocab.bos_token v) (Vocab.eos_token v) (Vocab.padding_token v)
    (Vocab.unk_token v) tokenizer) as (rest & Hl & _ & _ & Hrest).
  rewrite Hl, <- Hspecials in Hn. apply elem_of_app in Hn as [Hn|Hn]; [done|].
  rewrite Forall_forall in Hrest. apply Hrest in Hn as [Hn _].
  rewrite <- Hfreqs in Hn. lia.
Qed.

(** C7 (the code at line 45): whenever [max_size] is given, [__init__]
    raises [AttributeError], because it reads [self.itos] before any
    assignment to it; no vocabulary is constructed. *)
Theorem init_max_size_raises
    json_dirs (m : Z) min_freq bos eos pad plm unk tokenizer :
  Vocab.__init__ preprocess_caption from_pretrained
    json_dirs (Some m) min_freq bos eos pad plm unk tokenizer
    = Raise AttributeError.
Proof.
  unfold Vocab.__init__.
  change (Vocab.getattr None) with (@Raise (dict Z str) AttributeError).
  reflexivity.
Qed.

Lemma init_itos_nonempty json_dirs max_size min_freq bos eos pad plm unk tokenizer v :
  init json_dirs max_size min_freq bos eos pad plm unk tokenizer = Ok v →
  Vocab.itos v ≠ [].
Proof.
  intros H. apply init_Ok in H as (_ & _ & _ & _ & _ & Hpad & _ & _ & _ & H).
  apply dict_get_Some_elem in Hpad. intros Hnil.
  destruct plm as [name|].
  - destruct H as (te & _ & _ & _ & _ & _ & _ & Hitos).
    assert (Vocab.padding_idx v ∈ (Vocab.itos v).*1) as Hin.
    { rewrite Hitos. apply dict_of_items_keys. rewrite swap_keys.
      apply list_elem_of_fmap. by eexists (_, _). }
    rewrite Hnil in Hin. by apply elem_of_nil in Hin.
  - destruct H as (_ & _ & _ & _ & _ & Hstoi).
    rewrite Hstoi, Hnil in Hpad. by apply elem_of_nil in Hpad.
Qed.

(** C8 (the code at line 159): [extend] with a constructed vocabulary
    raises [AttributeError] at the first key of [v.itos] and appends
    nothing, whatever [self] holds and whether or not [sort] is set. *)
Theorem extend_raises
    json_dirs max_size min_freq bos eos pad plm unk tokenizer w self sort :
  init json_dirs max_size min_freq bos eos pad plm unk tokenizer = Ok w →
  Vocab.extend self w sort = Raise AttributeError.
Proof.
  intros H. apply init_itos_nonempty in H. unfold Vocab.extend.
  assert (∀ words, words ≠ [] →
    Vocab.extend_loop self (Vocab.Int <$> words) = Raise AttributeError)
    as Hloop.
  { by intros [|k words] ?. }
  apply Hloop. unfold dict_keys. destruct sort.
  - intros Hnil. apply (f_equal length) in Hnil.
    rewrite sort_by_perm, length_fmap in Hnil.
    by destruct (Vocab.itos w).
  - by destruct (Vocab.itos w).
Qed.

(** C9 (as amended): after every construction that returns, the
    frequency table gives for every token string, special or not, the
    number of its occurrences in the tokenized captions of all
    annotation files, and has an entry for exactly the strings that
    occur; a special-token string that occurs in a caption has its
    entry like any other. *)
Theorem freqs_counts
    json_dirs max_size min_freq bos eos pad plm unk tokenizer v t :
  init json_dirs max_size min_freq bos eos pad plm unk tokenizer = Ok v →
  Counter_getitem (Vocab.freqs v) t = occurrences t (all_tokens tokenizer json_dirs) ∧
  (is_Some (dict_get (Vocab.freqs v) t) ↔ t ∈ all_tokens tokenizer json_dirs).
Proof.
  intros H. apply init_Ok in H as (_ & _ & -> & _). split.
  - rewrite make_vocab_freqs, Counter_update_getitem. done.
  - rewrite dict_get_is_Some. apply freqs_key.
Qed.

(** The row of a special index holds a special token. *)
Lemma init_special_rows json_dirs max_size min_freq bos eos pad plm unk tokenizer v :
  init json_dirs max_size min_freq bos eos pad plm unk tokenizer = Ok v →
  tokenizer_ok from_pretrained plm →
  Vocab.specials v = [Vocab.padding_token v; Vocab.bos_token v;
                      Vocab.eos_token v; Vocab.unk_token v] ∧
  dict_get (Vocab.itos v) (Vocab.padding_idx v) = Some (Vocab.padding_token v) ∧
  dict_get (Vocab.itos v) (Vocab.bos_idx v) = Some (Vocab.bos_token v) ∧
  dict_get (Vocab.itos v) (Vocab.eos_idx v) = Some (Vocab.eos_token v).
Proof.
  intros H Hok. pose proof (init_stoi_itos _ _ _ _ _ _ _ _ _ _ H Hok) as Hinv.
  apply init_Ok in H as (_ & _ & _ & _ & Hsp & Hp & Hb & He & _).
  split_and!; [done | by apply Hinv..].
Qed.

(** The row of the padding index holds a special token. *)
Lemma init_padding_row json_dirs max_size min_freq bos eos pad plm unk tokenizer v :
  init json_dirs max_size min_freq bos eos pad plm unk tokenizer = Ok v →
  padding_unshared from_pretrained plm →
  dict_get (Vocab.itos v) (Vocab.padding_idx v) = Some (Vocab.padding_token v).
Proof.
  intros H Hpad. destruct plm as [name|].
  - apply init_Ok in H as (_ & _ & _ & _ & _ & Hp & _ & _ & _ & H).
    destruct H as (te & Hte & Hptok & _ & _ & _ & Hstoi & Hitos).
    rewrite Hstoi in Hp, Hitos.
    pose proof (Hpad name te _ _ eq_refl Hte Hptok Hp) as Hall.
    rewrite Forall_forall in Hall.
    destruct (dict_get (Vocab.itos v) (Vocab.padding_idx v)) as [tok|] eqn:E.
    + rewrite Hitos in E. apply dict_of_items_elem in E.
      apply (proj1 (elem_of_swap _ _ _)) in E.
      f_equal. exact (Hall _ E eq_refl).
    + apply dict_get_None in E. destruct E.
      rewrite Hitos, dict_of_items_keys, swap_keys.
      apply list_elem_of_fmap. exists (Vocab.padding_token v, Vocab.padding_idx v).
      split; [done|]. by apply dict_get_Some_elem.
  - destruct (init_special_rows _ _ _ _ _ _ _ _ _ _ H) as (_ & Hp & _); [|done].
    intros name te E. discriminate.
Qed.

(** C10 (as amended): a row without the eos index, whose indices are all
    indices of [itos], is walked to its end, every position whose token
    is not special giving its token, also after a padding index; and a
    row of padding indices alone decodes to the empty caption, the empty
    string when [join_words] is set and the empty token list otherwise,
    provided that, with a pretrained model, no other token of the
    tokenizer's vocabulary has the index of the padding token. *)
Theorem decode_without_eos
    json_dirs max_size min_freq bos eos pad plm unk tokenizer v :
  init json_dirs max_size min_freq bos eos pad plm unk tokenizer = Ok v →
  (∀ rows tokss join_words,
     Forall2 (tokens_of v) rows tokss →
     Forall (λ row, Vocab.eos_idx v ∉ row) rows →
     Vocab.decode_caption v rows join_words =
       Ok ((λ toks, caption_of join_words
              (filter (λ t, t ∉ Vocab.specials v) toks)) <$> tokss)) ∧
  (padding_unshared from_pretrained plm →
   ∀ rows join_words,
     Forall (λ row, ∃ n, row = replicate n (Vocab.padding_idx v)) rows →
     Vocab.decode_caption v rows join_words =
       Ok (replicate (length rows)
             (if join_words then Vocab.Joined [] else Vocab.Words []))).
Proof.
  intros H. split.
  - intros rows tokss join_words Htoks Heos. apply mapM_Ok.
    apply Forall2_fmap_r.
    induction Htoks as [|row toks rows tokss Hrow _ IH]; [constructor|].
    apply Forall_cons in Heos as [Heos Heos']. constructor; [|by apply IH].
    unfold Vocab.decode_row. by rewrite (decode_words_no_eos _ _ toks).
  - intros Hun rows join_words Hrows. apply mapM_Ok.
    pose proof (init_padding_row _ _ _ _ _ _ _ _ _ _ H Hun) as Hpad.
    apply init_Ok in H as (_ & _ & _ & _ & Hsp & _).
    induction Hrows as [|row rows [n ->] _ IH]; simpl; constructor; [|done].
    unfold Vocab.decode_row. rewrite decode_words_specials.
    + by destruct join_words.
    + apply Forall_replicate. eexists. split; [done|]. rewrite Hsp. left.
Qed.

(** C3 (as amended): for every list [T] of tokens that are in the
    vocabulary, are not special, are not empty and hold no white space,
    with [len(T) + 2 <= max_caption_length], in a vocabulary whose bos
    and eos tokens differ (and, with a pretrained model, whose tokenizer
    gives distinct tokens distinct indices), decoding [encode_caption(T)]
    with [join_words=False] gives back [T]. *)
Theorem encode_decode_roundtrip
    json_dirs max_size min_freq bos eos pad plm unk tokenizer v T :
  init json_dirs max_size min_freq bos eos pad plm unk tokenizer = Ok v →
  tokenizer_ok from_pretrained plm →
  Vocab.bos_token v ≠ Vocab.eos_token v →
  Forall (λ t, is_Some (dict_get (Vocab.stoi v) t) ∧ (t ∉ Vocab.specials v)
               ∧ plain_token t) T →
  (length T + 2 ≤ Vocab.max_caption_length v)%nat →
  ∃ vec, Vocab.encode_caption v T = Ok vec ∧
         Vocab.decode_caption v [vec] false = Ok [Vocab.Words T].
Proof.
  intros H Hok Hbe HT Hlen.
  pose proof (init_stoi_itos _ _ _ _ _ _ _ _ _ _ H Hok) as Hinv.
  destruct (init_special_rows _ _ _ _ _ _ _ _ _ _ H Hok) as (Hsp & _ & Hb & He).
  destruct (init_index_of _ _ _ _ _ _ _ _ _ _ H) as [Hib Hie].
  pose proof H as H'.
  apply init_Ok in H' as (_ & _ & _ & _ & _ & _ & Hsb & Hse & _).
  exists (encoding v T). rewrite encode_caption_eq, decide_True by done.
  split; [done|]. unfold encoding. rewrite Hib, Hie.
  set (pads := replicate _ _).
  assert (tokens_of v (Vocab.index_of v <$> T) T) as Htoks.
  { apply Forall2_fmap_l, Forall_Forall2_diag.
    eapply Forall_impl; [exact HT|]. intros t ([i Hi] & _ & _). simpl.
    unfold Vocab.index_of. rewrite Hi. by apply Hinv. }
  assert (Vocab.eos_idx v ∉ Vocab.index_of v <$> T) as Hno.
  { intros Hin. apply list_elem_of_fmap in Hin as (t & Ht & Hin).
    rewrite Forall_forall in HT. destruct (HT t Hin) as ([i Hi] & Hnsp & _).
    unfold Vocab.index_of in Ht. rewrite Hi in Ht. subst i.
    apply Hinv in Hi. rewrite He in Hi. injection Hi as <-.
    apply Hnsp. rewrite Hsp. do 2 right. left. }
  assert (filter (λ t, t ∉ Vocab.specials v) T = T) as Hfilter.
  { clear -HT. induction HT as [|t T (_ & Ht & _) _ IH]; [done|].
    by rewrite filter_cons, decide_True, IH. }
  simpl. unfold Vocab.decode_row.
  change (Vocab.bos_idx v :: (Vocab.index_of v <$> T) ++ Vocab.eos_idx v :: pads)
    with ((Vocab.bos_idx v :: (Vocab.index_of v <$> T))
            ++ Vocab.eos_idx v :: pads).
  rewrite (decode_words_stop v _ (Vocab.bos_token v :: T) (Vocab.eos_token v)).
  - simpl. rewrite filter_cons, decide_False, filter_app, Hfilter; last first.
    { intros Hn. apply Hn. rewrite Hsp. right. left. }
    rewrite filter_cons, decide_False, filter_nil, app_nil_r; last first.
    { intros Hn. apply Hn. rewrite Hsp. do 2 right. left. }
    change (lit " ") with [32%N].
    assert (Forall plain_token T) as Hplain.
    { eapply Forall_impl; [exact HT|]. by intros t (_ & _ & ?). }
    by rewrite strip_join, split_join.
  - by constructor.
  - apply not_elem_of_cons. split; [|done]. intros E.
    apply Hbe. rewrite E, Hb in He. by injection He.
  - done.
Qed.
End vocab.

(** ** The scenario of the specification, evaluated *)

Example dog_cat_itos :
  ∃ v, dog_cat_vocab = Ok v ∧
    (Vocab.itos v).*2 = lit <$> ["<pad>"; "<bos>"; "<eos>"; "<unk>";
                                 "a"; "runs"; "cat"; "dog"]%string ∧
    Vocab.max_caption_length v = 5%nat ∧
    Vocab.encode_caption v (lit <$> ["a"; "dog"; "runs"]%string)
      = Ok [1; 4; 7; 5; 2] ∧
    Vocab.encode_caption v (lit <$> ["a"; "cat"]%string) = Ok [1; 4; 6; 2; 0].
Proof. eexists. split_and!; [vm_compute; reflexivity | done..]. Qed.

Example pretrained_itos :
  ∃ v, pretrained_vocab = Ok v ∧
    Vocab.itos v = [(0, lit "<s>"); (1, lit "<pad>"); (2, lit "</s>");
                    (3, lit "<unk>"); (4, lit "dog")] ∧
    Vocab.encode_caption v (lit <$> ["dog"; "cat"]%string) = Ok [0; 4; 3; 2; 1].
Proof. eexists. split_and!; [vm_compute; reflexivity | done..]. Qed.

(** ** Where the claims fail as stated *)

(** C1: with one name for bos and eos, [itos[1]] is ["<s>"] and
    [stoi["<s>"]] is 2. *)
Lemma same_ends_not_inverse :
  ∃ v, same_ends_vocab = Ok v ∧
    dict_get (Vocab.itos v) 1 = Some (lit "<s>") ∧
    dict_get (Vocab.stoi v) (lit "<s>") = Some 2.
Proof. eexists. split_and!; [vm_compute; reflexivity | done..]. Qed.

(** The same for a special token that occurs in a caption: it is appended
    a second time, the deletion at line 79 coming after the sort. *)
Lemma unk_inside_not_inverse :
  ∃ v, unk_inside_vocab = Ok v ∧
    dict_get (Vocab.itos v) 3 = Some (lit "<unk>") ∧
    dict_get (Vocab.stoi v) (lit "<unk>") = Some 4.
Proof. eexists. split_and!; [vm_compute; reflexivity | done..]. Qed.

(** C2: four tokens do not fit the five positions, and no sequence is
    returned. *)
Lemma encode_long_caption :
  ∃ v, dog_cat_vocab = Ok v ∧
    Vocab.max_caption_length v = 5%nat ∧
    ¬ ∃ vec, Vocab.encode_caption v (lit <$> ["a"; "dog"; "runs"; "fast"]%string)
             = Ok vec.
Proof.
  eexists. split_and!; [vm_compute; reflexivity | done |].
  intros [vec Hvec]. vm_compute in Hvec. discriminate.
Qed.

(** C3: with one name for bos and eos the walk stops at position 0. *)
Lemma same_ends_roundtrip :
  ∃ v vec, same_ends_vocab = Ok v ∧
    Vocab.encode_caption v [lit "a"] = Ok vec ∧
    Vocab.decode_caption v [vec] false = Ok [Vocab.Words []].
Proof.
  eexists. eexists. split_and!; [vm_compute; reflexivity..].
Qed.

(** And a token with white space inside comes back in pieces. *)
Lemma spaced_token_roundtrip :
  ∃ v vec, whole_caption_vocab = Ok v ∧
    Vocab.encode_caption v [lit "a dog runs"] = Ok vec ∧
    Vocab.decode_caption v [vec] false
      = Ok [Vocab.Words (lit <$> ["a"; "dog"; "runs"]%string)].
Proof.
  eexists. eexists. split_and!; [vm_compute; reflexivity..].
Qed.

(** C4: five tokens against five positions: the sixth assignment raises. *)
Lemma encode_raises_IndexError :
  ∃ v, dog_cat_vocab = Ok v ∧
    Vocab.max_caption_length v = 5%nat ∧
    Vocab.encode_caption v
      (lit <$> ["a"; "dog"; "runs"; "very"; "fast"]%string) = Raise IndexError.
Proof. eexists. split_and!; [vm_compute; reflexivity | done..]. Qed.

(** Without annotations the tensor is empty, and the empty caption raises
    already. *)
Lemma encode_without_annotations :
  ∃ v, empty_vocab = Ok v ∧
    Vocab.max_caption_length v = 0%nat ∧
    Vocab.encode_caption v [] = Raise IndexError.
Proof. eexists. split_and!; [vm_compute; reflexivity | done..]. Qed.

(** C10: with a pretrained tokenizer in which ["dog"] has the index of
    the padding token, [itos] holds ["dog"] at the padding index, and a
    row of padding indices alone, which holds no eos index, decodes to
    ["dog dog dog"]. *)
Lemma shared_pad_row_decodes :
  ∃ v, shared_pad_vocab = Ok v ∧
    Vocab.padding_idx v = 1 ∧ Vocab.eos_idx v = 2 ∧
    Vocab.decode_caption v [replicate 3 (Vocab.padding_idx v)] true
      = Ok [Vocab.Joined (lit "dog dog dog")] ∧
    Vocab.decode_caption v [replicate 3 (Vocab.padding_idx v)] false
      = Ok [Vocab.Words (lit <$> ["dog"; "dog"; "dog"]%string)].
Proof. eexists. split_and!; [vm_compute; reflexivity | done..]. Qed.

(** And an index that is no index of [itos] ends the walk with
    [KeyError], eos index or not. *)
Lemma decode_outside_itos :
  ∃ v, dog_cat_vocab = Ok v ∧
    (Vocab.eos_idx v ∉ [0; 9; 4]) ∧
    Vocab.decode_caption v [[0; 9; 4]] false = Raise KeyError.
Proof.
  eexists. split_and!; [vm_compute; reflexivity | | done].
  apply (bool_decide_unpack _). by vm_compute.
Qed.

(** C9: the unk token of a caption is counted in [freqs]. *)
Lemma unk_inside_counted :
  ∃ v, unk_inside_vocab = Ok v ∧
    lit "<unk>" ∈ Vocab.specials v ∧
    dict_get (Vocab.freqs v) (lit "<unk>") = Some 1.
Proof.
  eexists. split_and!; [vm_compute; reflexivity | | done].
  apply (bool_decide_unpack _). by vm_compute.
Qed.

(** ** The theorems at the scenario of the specification *)

Ltac by_evaluation := apply (bool_decide_unpack _); vm_compute; exact I.

Ltac token_ok :=
  split; [by eexists |];
  split; [by_evaluation |];
  split; [discriminate | vm_compute; repeat constructor].

Lemma no_model_ok : tokenizer_ok no_model None.
Proof. intros name te E. discriminate. Defined.

Lemma small_model_ok : tokenizer_ok small_model (Some (lit "small")).
Proof.
  intros name te _ E. injection E as <-. split; by_evaluation.
Defined.

Lemma stoi_itos_inverse_dog_cat :
  ∃ v, dog_cat_vocab = Ok v ∧
    tokenizer_ok no_model None ∧
    NoDup (lit <$> ["<pad>"; "<bos>"; "<eos>"; "<unk>"]%string) ∧
    (∀ i t, dict_get (Vocab.itos v) i = Some t →
            dict_get (Vocab.stoi v) t = Some i) ∧
    (∀ t i, dict_get (Vocab.stoi v) t = Some i →
            dict_get (Vocab.itos v) i = Some t).
Proof.
  eexists. split; [vm_compute; reflexivity|].
  split; [exact no_model_ok|]. split; [by_evaluation|].
  eapply (stoi_itos_inverse whitespace_tokens no_model dog_cat None 1
    (lit "<bos>") (lit "<eos>") (lit "<pad>") None (lit "<unk>") None).
  - vm_compute; reflexivity.
  - exact no_model_ok.
  - intros _. split; by_evaluation.
Defined.

Lemma encode_caption_layout_dog_cat :
  ∃ v vec, dog_cat_vocab = Ok v ∧
    (length (lit <$> ["a"; "cat"]%string) + 2 ≤ Vocab.max_caption_length v)%nat ∧
    Vocab.encode_caption v (lit <$> ["a"; "cat"]%string) = Ok vec ∧
    length vec = Vocab.max_caption_length v ∧
    vec !! 0%nat = Some (Vocab.bos_idx v) ∧
    vec !! 3%nat = Some (Vocab.eos_idx v).
Proof.
  eexists. 
  destruct (encode_caption_layout whitespace_tokens no_model dog_cat None 1
    (lit "<bos>") (lit "<eos>") (lit "<pad>") None (lit "<unk>") None
    _ (lit <$> ["a"; "cat"]%string) ltac:(vm_compute; reflexivity)
    ltac:(vm_compute; lia)) as (vec & Hvec & Hlen & Hbos & _ & Heos & _).
  exists vec. split_and!; [vm_compute; reflexivity | vm_compute; lia | done..].
Defined.

Lemma encode_decode_roundtrip_dog_cat :
  ∃ v vec, dog_cat_vocab = Ok v ∧
    Vocab.bos_token v ≠ Vocab.eos_token v ∧
    Vocab.encode_caption v (lit <$> ["a"; "cat"]%string) = Ok vec ∧
    Vocab.decode_caption v [vec] false
      = Ok [Vocab.Words (lit <$> ["a"; "cat"]%string)].
Proof.
  eexists.
  destruct (encode_decode_roundtrip whitespace_tokens no_model dog_cat None 1
    (lit "<bos>") (lit "<eos>") (lit "<pad>") None (lit "<unk>") None
    _ (lit <$> ["a"; "cat"]%string) ltac:(vm_compute; reflexivity) no_model_ok)
    as (vec & Henc & Hdec).
  - by_evaluation.
  - apply Forall_cons; split; [token_ok|].
    apply Forall_cons; split; [token_ok | constructor].
  - vm_compute; lia.
  - exists vec. split_and!; [vm_compute; reflexivity | by_evaluation | done..].
Defined.

Lemma encode_caption_raises_dog_cat :
  ∃ v, dog_cat_vocab = Ok v ∧
    (∃ vec, Vocab.encode_caption v (lit <$> ["a"; "cat"]%string) = Ok vec) ∧
    Vocab.encode_caption v (lit <$> ["a"; "dog"; "runs"; "fast"]%string)
      = Raise IndexError.
Proof.
  eexists. split; [vm_compute; reflexivity|]. split.
  - apply encode_caption_raises. vm_compute; lia.
  - apply encode_caption_raises. vm_compute; lia.
Defined.

Lemma itos_specials_then_sorted_dog_cat :
  ∃ v rest, dog_cat_vocab = Ok v ∧
    dict_get (Vocab.itos v) 0 = Some (lit "<pad>") ∧
    dict_get (Vocab.itos v) 3 = Some (lit "<unk>") ∧
    Vocab.itos v = enumerate (Vocab.specials v ++ rest) ∧
    StronglySorted (word_order (Vocab.freqs v)) rest.
Proof.
  eexists.
  destruct (itos_specials_then_sorted whitespace_tokens no_model dog_cat None 1
    (lit "<bos>") (lit "<eos>") (lit "<pad>") (lit "<unk>") None
    _ ltac:(vm_compute; reflexivity)) as (H0 & _ & _ & H3 & rest & Hitos & Hrest).
  exists rest. split_and!; [vm_compute; reflexivity | done..].
Defined.

Lemma rare_token_absent_dog :
  ∃ v, frequent_vocab = Ok v ∧
    (lit "dog" ∉ Vocab.specials v) ∧
    Counter_getitem (Vocab.freqs v) (lit "dog") < Z.max 2 1 ∧
    dict_get (Vocab.stoi v) (lit "dog") = None.
Proof.
  eexists. split; [vm_compute; reflexivity|].
  split; [by_evaluation|]. split; [vm_compute; reflexivity|].
  eapply (rare_token_absent whitespace_tokens no_model dog_cat None 2
    (lit "<bos>") (lit "<eos>") (lit "<pad>") (lit "<unk>") None).
  - vm_compute; reflexivity.
  - by_evaluation.
  - vm_compute; reflexivity.
Defined.

Lemma extend_raises_dog_cat :
  ∃ v, dog_cat_vocab = Ok v ∧ Vocab.extend v v false = Raise AttributeError.
Proof.
  eexists. split; [vm_compute; reflexivity|].
  eapply (extend_raises whitespace_tokens no_model dog_cat None 1
    (lit "<bos>") (lit "<eos>") (lit "<pad>") None (lit "<unk>") None).
  vm_compute; reflexivity.
Defined.

Lemma freqs_counts_dog_cat :
  ∃ v, dog_cat_vocab = Ok v ∧
    Counter_getitem (Vocab.freqs v) (lit "runs")
      = occurrences (lit "runs")
          (concat (captions whitespace_tokens None dog_cat)) ∧
    (is_Some (dict_get (Vocab.freqs v) (lit "runs"))
       ↔ lit "runs" ∈ concat (captions whitespace_tokens None dog_cat)).
Proof.
  eexists. split; [vm_compute; reflexivity|].
  eapply (freqs_counts whitespace_tokens no_model dog_cat None 1
    (lit "<bos>") (lit "<eos>") (lit "<pad>") None (lit "<unk>") None).
  vm_compute; reflexivity.
Defined.

Lemma small_model_unshared : padding_unshared small_model (Some (lit "small")).
Proof.
  intros name te pad i _ E Hpad Hi. injection E as <-.
  injection Hpad as <-. injection Hi as <-. by_evaluation.
Defined.

Lemma decode_without_eos_dog_cat :
  ∃ v v', dog_cat_vocab = Ok v ∧ pretrained_vocab = Ok v' ∧
    padding_unshared small_model (Some (lit "small")) ∧
    Vocab.decode_caption v [[0; 0; 4; 0; 7]] false
      = Ok [Vocab.Words (lit <$> ["a"; "dog"]%string)] ∧
    Vocab.decode_caption v [[0; 0; 0; 0; 0]] true = Ok [Vocab.Joined []] ∧
    Vocab.decode_caption v' [[1; 1; 1]] false = Ok [Vocab.Words []].
Proof.
  eexists. eexists. split; [vm_compute; reflexivity|].
  split; [vm_compute; reflexivity|]. split; [exact small_model_unshared|].
  destruct (decode_without_eos whitespace_tokens no_model dog_cat None 1
    (lit "<bos>") (lit "<eos>") (lit "<pad>") None (lit "<unk>") None
    _ ltac:(vm_compute; reflexivity)) as [Hwalk Hpad].
  destruct (decode_without_eos whitespace_tokens small_model dog_cat None 1
    (lit "<bos>") (lit "<eos>") (lit "<pad>") (Some (lit "small")) (lit "<unk>")
    None _ ltac:(vm_compute; reflexivity)) as [_ Hpad'].
  split_and!.
  - etrans; [apply (Hwalk [[0; 0; 4; 0; 7]]
      [lit <$> ["<pad>"; "<pad>"; "a"; "<pad>"; "dog"]%string] false)
      | vm_compute; reflexivity].
    + repeat constructor.
    + repeat constructor. by_evaluation.
  - etrans; [apply (Hpad ltac:(by intros ??????) [[0; 0; 0; 0; 0]] true)
      | vm_compute; reflexivity].
    repeat constructor. by exists 5%nat.
  - etrans; [apply (Hpad' small_model_unshared [[1; 1; 1]] false)
      | vm_compute; reflexivity].
    repeat constructor. by exists 3%nat.
Defined.

(** * More of the class *)

(** ** make_vocab: the maximum caption length *)

Lemma max_list_app_max (l1 l2 : list nat) :
  max_list (l1 ++ l2) = (max_list l1 `max` max_list l2)%nat.
Proof. induction l1 as [|n l1 IH]; simpl; [done|]. rewrite IH. lia. Qed.

Section max_caption_length.
Variable preprocess_caption : str → option str → list str.

Lemma make_vocab_longest tokenizer json_dirs :
  (Vocab.make_vocab preprocess_caption tokenizer json_dirs).2 =
    longest (captions preprocess_caption tokenizer json_dirs).
Proof.
  unfold Vocab.make_vocab, captions, longest.
  match goal with |- (foldl ?f _ _).2 = _ => set (outer := f) end.
  enough (∀ st, (foldl outer st json_dirs).2 = (st.2 `max`
    max_list ((λ caption, length caption + 2)%nat <$>
      ((λ ann, preprocess_caption ann tokenizer) <$> concat json_dirs)))%nat)
    as G by apply (G ([], 0%nat)).
  induction json_dirs as [|json_data json_dirs IH]; intros st.
  - simpl. lia.
  - cbn [foldl concat]. rewrite IH, !fmap_app, max_list_app_max.
    rewrite Nat.max_assoc. f_equal. unfold outer. clear.
    match goal with |- (foldl ?f _ _).2 = _ => set (step := f) end.
    revert st. induction json_data as [|ann json_data IH]; intros [c m].
    + simpl. lia.
    + rewrite !fmap_cons. cbn [foldl max_list]. rewrite IH.
      unfold step, id. cbn [snd]. case_decide; lia.
Qed.
End max_caption_length.

(** ** The loop of lines 81-84 stops where the frequencies fall short *)

Lemma append_words_stop min_freq waf : ∀ itos,
  ∃ pre suf, waf = pre ++ suf ∧
    Vocab.append_words min_freq None waf itos = itos ++ pre.*1 ∧
    Forall (λ wf, min_freq ≤ wf.2) pre ∧
    match suf with [] => True | wf :: _ => wf.2 < min_freq end.
Proof.
  induction waf as [|[word freq] waf IH]; intros itos; simpl.
  - exists [], []. csimpl. by rewrite app_nil_r.
  - rewrite orb_false_r. destruct (freq <? min_freq) eqn:E.
    + exists [], ((word, freq) :: waf). csimpl. rewrite app_nil_r.
      apply Z.ltb_lt in E. done.
    + apply Z.ltb_ge in E.
      destruct (IH (itos ++ [word])) as (pre & suf & -> & -> & Hpre & Hsuf).
      exists ((word, freq) :: pre), suf. csimpl.
      rewrite <- app_assoc. split_and!; [done | done | by constructor | done].
Qed.

Lemma filter_all {A} (P : A → Prop) `{∀ x, Decision (P x)} (l : list A) :
  Forall P l → filter P l = l.
Proof.
  induction 1 as [|x l Hx _ IH]; [done|]. by rewrite filter_cons, decide_True, IH.
Qed.

Lemma filter_none {A} (P : A → Prop) `{∀ x, Decision (P x)} (l : list A) :
  Forall (λ x, ¬ P x) l → filter P l = [].
Proof.
  induction 1 as [|x l Hx _ IH]; [done|]. by rewrite filter_cons, decide_False.
Qed.

Lemma sorted_suffix_below min_freq (pre suf : list (str * Z)) :
  StronglySorted pair_order (pre ++ suf) →
  match suf with [] => True | wf :: _ => wf.2 < min_freq end →
  Forall (λ wf, wf.2 < min_freq) suf.
Proof.
  intros Hsorted Hsuf. destruct suf as [|x suf]; [constructor|].
  induction pre as [|y pre IH]; simpl in Hsorted.
  - apply StronglySorted_inv in Hsorted as [_ Hx]. constructor; [done|].
    eapply Forall_impl; [exact Hx|]. intros z [Hz|[Hz _]]; simpl in *; lia.
  - apply StronglySorted_inv in Hsorted as [Hsorted _]. by apply IH.
Qed.

Lemma Counter_update_lookup (toks : list str) t f :
  dict_get (Counter_update [] toks) t = Some f ↔
  t ∈ toks ∧ f = occurrences t toks.
Proof.
  pose proof (Counter_update_getitem toks [] t) as Hget.
  unfold Counter_getitem in Hget. simpl in Hget. split.
  - intros E. rewrite E in Hget. simpl in Hget. split; [|lia].
    assert (is_Some (dict_get (Counter_update [] toks) t)) as Hs by eauto.
    apply dict_get_is_Some, Counter_update_keys in Hs as [Hs|Hs]; [|done].
    by apply elem_of_nil in Hs.
  - intros [Hin ->].
    destruct (dict_get (Counter_update [] toks) t) as [f|] eqn:E.
    + simpl in Hget. f_equal. lia.
    + apply dict_get_None in E. destruct E.
      apply Counter_update_keys. by right.
Qed.

Section frequent_words.
Variable preprocess_caption : str → option str → list str.

(** The words after the specials are the tokens whose frequency reaches
    the threshold, each once. *)
Lemma itos_list_frequent json_dirs min_freq bos eos pad unk tokenizer :
  let freqs := (Vocab.make_vocab preprocess_caption tokenizer json_dirs).1 in
  ∃ rest : list str,
    itos_list preprocess_caption json_dirs min_freq bos eos pad unk tokenizer
      = [pad; bos; eos; unk] ++ rest ∧
    NoDup rest ∧
    (∀ t, t ∈ rest ↔ Z.max min_freq 1 ≤ Counter_getitem freqs t) ∧
    length rest = length (filter (λ wf, Z.max min_freq 1 ≤ wf.2) freqs).
Proof.
  intros freqs. unfold itos_list. fold freqs.
  assert (dict_wf freqs) as Hwf by apply make_vocab_wf.
  destruct (append_words_stop (Z.max min_freq 1)
    (Vocab.words_and_frequencies freqs) [pad; bos; eos; unk])
    as (pre & suf & Hwaf & -> & Hpre & Hsuf).
  pose proof (words_and_frequencies_sorted freqs Hwf) as Hsorted.
  rewrite Hwaf in Hsorted. apply sorted_suffix_below with (min_freq := Z.max min_freq 1)
    in Hsorted; [|done].
  assert (∀ x, x ∈ pre ++ suf ↔ x ∈ freqs) as Hperm.
  { intros x. by rewrite <- Hwaf, words_and_frequencies_perm. }
  assert (pre = filter (λ wf, Z.max min_freq 1 ≤ wf.2) (pre ++ suf)) as Hfilter.
  { rewrite filter_app.
    rewrite (filter_all _ pre) by done.
    rewrite (filter_none _ suf); [by rewrite app_nil_r|].
    eapply Forall_impl; [exact Hsorted|]. intros x ?. simpl in *. lia. }
  exists pre.*1. split_and!; [done | | |].
  - assert (NoDup (pre ++ suf).*1) as Hnd.
    { rewrite <- Hwaf, words_and_frequencies_perm. apply Hwf. }
    rewrite fmap_app in Hnd. by apply NoDup_app in Hnd as [? _].
  - intros t. split.
    + intros ([w f] & -> & Hin)%list_elem_of_fmap. simpl. unfold freqs.
      rewrite (freqs_getitem preprocess_caption tokenizer json_dirs w f).
      * rewrite Forall_forall in Hpre. by apply (Hpre (w, f)).
      * apply Hperm, elem_of_app. by left.
    + intros Ht. unfold Counter_getitem in Ht.
      destruct (dict_get freqs t) as [f|] eqn:E; simpl in Ht; [|lia].
      apply dict_get_Some_elem, Hperm, elem_of_app in E as [E|E].
      * apply list_elem_of_fmap. by exists (t, f).
      * rewrite Forall_forall in Hsorted. apply Hsorted in E. simpl in E. lia.
  - rewrite length_fmap. rewrite Hfilter at 1.
    by rewrite <- Hwaf, words_and_frequencies_perm.
Qed.
End frequent_words.

(** ** Construction, further *)

Lemma Forall_four {A} (P : A → Prop) a b c d :
  Forall P [a; b; c; d] ↔ P a ∧ P b ∧ P c ∧ P d.
Proof.
  rewrite !Forall_cons, Forall_nil. tauto.
Qed.

Lemma getitem_token_outcome (stoi : dict str Z) tok :
  (∃ w i, tok = Some w ∧ dict_get stoi w = Some i ∧
          Vocab.getitem_token stoi tok = Ok (w, i)) ∨
  (¬ token_present stoi tok ∧ Vocab.getitem_token stoi tok = Raise KeyError).
Proof.
  destruct tok as [w|]; simpl; [|right; split; [tauto | done]].
  unfold dict_getitem. destruct (dict_get stoi w) as [i|] eqn:E; simpl.
  - left. by exists w, i.
  - right. split; [|done]. by intros [i Hi].
Qed.

Lemma enumerate_is_Some {A} (l : list A) i :
  is_Some (dict_get (enumerate l) i) ↔ 0 ≤ i < Z.of_nat (length l).
Proof.
  split.
  - intros [t Ht]. apply dict_get_Some_elem, elem_of_enumerate_from in Ht
      as (n & -> & Hn). apply lookup_lt_Some in Hn. lia.
  - intros Hi. rewrite <- (Z2Nat.id i), dict_get_enumerate by lia.
    apply lookup_lt_is_Some. lia.
Qed.

Lemma length_enumerate {A} (l : list A) : length (enumerate l) = length l.
Proof.
  unfold enumerate.
  by rewrite <- (length_fmap snd (enumerate_from _ _)), enumerate_from_values.
Qed.

Section construction_more.
Variable preprocess_caption : str → option str → list str.
Variable from_pretrained : str → result TokenEncoder.t.

Abbreviation init := (Vocab.__init__ preprocess_caption from_pretrained).
Abbreviation all_tokens tokenizer json_dirs :=
  (concat (captions preprocess_caption tokenizer json_dirs)).

Lemma init_longest json_dirs max_size min_freq bos eos pad plm unk tokenizer v :
  init json_dirs max_size min_freq bos eos pad plm unk tokenizer = Ok v →
  Vocab.max_caption_length v = longest (captions preprocess_caption tokenizer json_dirs).
Proof.
  intros H. apply init_Ok in H as (_ & _ & _ & -> & _). apply make_vocab_longest.
Qed.

(** X1: [max_caption_length] is the largest [len(caption) + 2] over the
    tokenized captions of all annotation files: every caption is within
    it, one caption reaches it, and it is 0 when there is no caption. *)
Theorem max_caption_length_longest
    json_dirs max_size min_freq bos eos pad plm unk tokenizer v :
  init json_dirs max_size min_freq bos eos pad plm unk tokenizer = Ok v →
  let cs := captions preprocess_caption tokenizer json_dirs in
  (∀ caption, caption ∈ cs →
     (length caption + 2 ≤ Vocab.max_caption_length v)%nat) ∧
  (cs ≠ [] → ∃ caption, caption ∈ cs ∧
     Vocab.max_caption_length v = (length caption + 2)%nat) ∧
  (cs = [] → Vocab.max_caption_length v = 0%nat).
Proof.
  intros H cs. rewrite (init_longest _ _ _ _ _ _ _ _ _ _ H). fold cs.
  unfold longest. split_and!.
  - intros caption Hin. apply max_list_elem_of_le.
    apply list_elem_of_fmap. by exists caption.
  - intros Hne.
    assert ((λ caption : list str, (length caption + 2)%nat) <$> cs ≠ []) as Hne'.
    { by destruct cs. }
    apply max_list_elem_of, list_elem_of_fmap in Hne' as (caption & E & Hin).
    by exists caption.
  - by intros ->.
Qed.

(** X2: every caption of the annotation files the vocabulary was built
    from is encoded without an exception, into [max_caption_length]
    indices. *)
Theorem annotation_caption_encodes
    json_dirs max_size min_freq bos eos pad plm unk tokenizer v ann :
  init json_dirs max_size min_freq bos eos pad plm unk tokenizer = Ok v →
  ann ∈ concat json_dirs →
  ∃ vec, Vocab.encode_caption v (preprocess_caption ann tokenizer) = Ok vec ∧
         length vec = Vocab.max_caption_length v.
Proof.
  intros H Hann. pose proof (init_longest _ _ _ _ _ _ _ _ _ _ H) as Hmax.
  assert (length (preprocess_caption ann tokenizer) + 2
            ≤ Vocab.max_caption_length v)%nat as Hlen.
  { rewrite Hmax. apply max_list_elem_of_le, list_elem_of_fmap.
    exists (preprocess_caption ann tokenizer). split; [done|].
    apply list_elem_of_fmap. by exists ann. }
  exists (encoding v (preprocess_caption ann tokenizer)).
  rewrite encode_caption_eq, decide_True by done. split; [done|].
  unfold encoding. rewrite !length_app, length_fmap, length_replicate. simpl. lia.
Qed.

(** The keys of [stoi] are the values of [itos]. *)
Lemma init_stoi_keys json_dirs max_size min_freq bos eos pad unk tokenizer v t :
  init json_dirs max_size min_freq bos eos pad None unk tokenizer = Ok v →
  is_Some (dict_get (Vocab.stoi v) t) ↔
  t ∈ itos_list preprocess_caption json_dirs min_freq bos eos pad unk tokenizer.
Proof.
  intros H. pose proof (init_itos_enumerate _ _ _ _ _ _ _ _ _ _ _ H) as Hitos.
  apply init_Ok in H as (_ & _ & _ & _ & _ & _ & _ & _ & _ & H).
  destruct H as (_ & _ & _ & _ & _ & ->).
  rewrite dict_get_is_Some, dict_of_items_keys, swap_keys, Hitos.
  unfold enumerate. by rewrite enumerate_from_values.
Qed.

(** X3: without a pretrained model, the tokens of [stoi] are the four
    specials and the tokens whose frequency is at least
    [max(min_freq, 1)], and no other. *)
Theorem stoi_membership
    json_dirs max_size min_freq bos eos pad unk tokenizer v t :
  init json_dirs max_size min_freq bos eos pad None unk tokenizer = Ok v →
  is_Some (dict_get (Vocab.stoi v) t) ↔
  t ∈ Vocab.specials v ∨ Z.max min_freq 1 ≤ Counter_getitem (Vocab.freqs v) t.
Proof.
  intros H. rewrite (init_stoi_keys _ _ _ _ _ _ _ _ _ _ H).
  apply init_Ok in H
    as (_ & _ & -> & _ & -> & _ & _ & _ & _ & -> & -> & -> & -> & _).
  destruct (itos_list_frequent preprocess_caption json_dirs min_freq bos eos
    pad unk tokenizer) as (rest & -> & _ & Hrest & _).
  by rewrite elem_of_app, Hrest.
Qed.

(** X4: without a pretrained model, [len(self)] is 4 plus the number of
    distinct tokens whose frequency is at least [max(min_freq, 1)]. *)
Theorem len_counts_frequent
    json_dirs max_size min_freq bos eos pad unk tokenizer v :
  init json_dirs max_size min_freq bos eos pad None unk tokenizer = Ok v →
  Vocab.__len__ v =
    (4 + length (filter (λ wf, (Z.max min_freq 1 ≤ wf.2)%Z) (Vocab.freqs v)))%nat.
Proof.
  intros H. unfold Vocab.__len__.
  rewrite (init_itos_enumerate _ _ _ _ _ _ _ _ _ _ _ H).
  apply init_Ok in H as (_ & _ & -> & _).
  destruct (itos_list_frequent preprocess_caption json_dirs min_freq bos eos
    pad unk tokenizer) as (rest & -> & _ & _ & <-).
  unfold enumerate.
  rewrite <- (length_fmap snd), enumerate_from_values, length_app. done.
Qed.

(** X5: without a pretrained model, the indices of [itos] are exactly
    [0 .. len(self) - 1]. *)
Theorem itos_indices_contiguous
    json_dirs max_size min_freq bos eos pad unk tokenizer v i :
  init json_dirs max_size min_freq bos eos pad None unk tokenizer = Ok v →
  is_Some (dict_get (Vocab.itos v) i) ↔ 0 ≤ i < Z.of_nat (Vocab.__len__ v).
Proof.
  intros H. unfold Vocab.__len__.
  rewrite (init_itos_enumerate _ _ _ _ _ _ _ _ _ _ _ H), length_enumerate.
  apply enumerate_is_Some.
Qed.

(** X6: without a pretrained model, when the four special-token names
    are pairwise distinct and none of them is a token of a caption, the
    cached indices are 0 for padding, 1 for bos, 2 for eos and 3 for
    unk. *)
Theorem special_indices
    json_dirs max_size min_freq bos eos pad unk tokenizer v :
  Vocab.__init__ preprocess_caption from_pretrained
    json_dirs max_size min_freq bos eos pad None unk tokenizer = Ok v →
  NoDup [pad; bos; eos; unk] →
  Forall (λ s, s ∉ all_tokens tokenizer json_dirs) [pad; bos; eos; unk] →
  Vocab.padding_idx v = 0 ∧ Vocab.bos_idx v = 1 ∧
  Vocab.eos_idx v = 2 ∧ Vocab.unk_idx v = 3.
Proof.
  intros H Hnd Hout.
  assert (tokenizer_ok from_pretrained None) as Hok by (by intros ???).
  pose proof (init_itos_stoi _ _ _ _ _ _ _ _ _ _ _ _ H Hok (λ _, conj Hnd Hout))
    as Hinv.
  pose proof (init_itos_enumerate _ _ _ _ _ _ _ _ _ _ _ H) as Hitos.
  apply init_Ok in H
    as (_ & _ & _ & _ & _ & Hp & Hb & He & Hu & Ep & Eb & Ee & Eu & _).
  rewrite Ep in Hp. rewrite Eb in Hb. rewrite Ee in He. rewrite Eu in Hu.
  destruct (itos_list_spec preprocess_caption json_dirs min_freq bos eos
    pad unk tokenizer) as (rest & Hl & _).
  rewrite Hl in Hitos.
  assert (∀ (n : nat) w, ([pad; bos; eos; unk] ++ rest) !! n = Some w →
    dict_get (Vocab.stoi v) w = Some (Z.of_nat n)) as Hidx.
  { intros n w Hn. apply Hinv. rewrite Hitos, dict_get_enumerate. done. }
  rewrite (Hidx 0%nat pad eq_refl) in Hp. rewrite (Hidx 1%nat bos eq_refl) in Hb.
  rewrite (Hidx 2%nat eos eq_refl) in He. rewrite (Hidx 3%nat unk eq_refl) in Hu.
  injection Hp as <-. injection Hb as <-. injection He as <-. injection Hu as <-.
  done.
Qed.

(** What a construction with a pretrained model comes to, once the
    tokenizer is loaded. *)
Lemma init_pretrained_cases
    json_dirs min_freq bos eos pad name unk tokenizer te :
  from_pretrained name = Ok te →
  (Forall (token_present (TokenEncoder.get_vocab te)) (special_tokens te) ∧
   ∃ v, init json_dirs None min_freq bos eos pad (Some name) unk tokenizer = Ok v) ∨
  (¬ Forall (token_present (TokenEncoder.get_vocab te)) (special_tokens te) ∧
   init json_dirs None min_freq bos eos pad (Some name) unk tokenizer
     = Raise KeyError).
Proof.
  intros Hte. unfold Vocab.__init__, special_tokens.
  cbn [mbind result_bind mret result_ret].
  destruct (Vocab.make_vocab preprocess_caption tokenizer json_dirs)
    as [freqs mcl].
  rewrite Hte. cbn [mbind result_bind]. rewrite Forall_four.
  set (vocab := TokenEncoder.get_vocab te).
  destruct (getitem_token_outcome vocab (TokenEncoder.pad_token te))
    as [(wp & ip & Ep & Hp & ->)|[Hp ->]]; cbn [mbind result_bind];
    [|right; split; [tauto | done]].
  destruct (getitem_token_outcome vocab (TokenEncoder.bos_token te))
    as [(wb & ib & Eb & Hb & ->)|[Hb ->]]; cbn [mbind result_bind];
    [|right; split; [tauto | done]].
  destruct (getitem_token_outcome vocab (TokenEncoder.eos_token te))
    as [(we & ie & Ee & He & ->)|[He ->]]; cbn [mbind result_bind];
    [|right; split; [tauto | done]].
  destruct (getitem_token_outcome vocab (TokenEncoder.unk_token te))
    as [(wu & iu & Eu & Hu & ->)|[Hu ->]]; cbn [mbind result_bind];
    [|right; split; [tauto | done]].
  left. split; [|eauto]. rewrite Ep, Eb, Ee, Eu. simpl. eauto 10.
Qed.

Lemma make_vocab_positive tokenizer json_dirs t f :
  dict_get (Vocab.make_vocab preprocess_caption tokenizer json_dirs).1 t = Some f →
  1 ≤ f.
Proof.
  intros Hf.
  assert (t ∈ all_tokens tokenizer json_dirs) as Hin.
  { apply freqs_key, dict_get_is_Some. eauto. }
  apply occurrences_pos in Hin.
  rewrite make_vocab_freqs in Hf. apply Counter_update_lookup in Hf as [_ ->].
  lia.
Qed.

(** X8: the frequency table holds no count below 1. *)
Theorem freqs_positive
    json_dirs max_size min_freq bos eos pad plm unk tokenizer v t f :
  init json_dirs max_size min_freq bos eos pad plm unk tokenizer = Ok v →
  dict_get (Vocab.freqs v) t = Some f → 1 ≤ f.
Proof.
  intros H Hf. apply init_Ok in H as (_ & _ & Hfreqs & _).
  rewrite Hfreqs in Hf. by eapply make_vocab_positive.
Qed.

(** X9: decoding what [encode_caption] returns gives the tokens of the
    caption that are in [stoi] and are not special, in order: a token
    absent from [stoi] is encoded as unk and dropped with the specials.
    The caption holds no eos token and fits, eos differs from bos and
    from unk, and a pretrained tokenizer gives distinct tokens distinct
    indices. *)
Theorem decode_encode_keeps_known
    json_dirs max_size min_freq bos eos pad plm unk tokenizer v T join_words :
  init json_dirs max_size min_freq bos eos pad plm unk tokenizer = Ok v →
  tokenizer_ok from_pretrained plm →
  Vocab.bos_token v ≠ Vocab.eos_token v →
  Vocab.unk_token v ≠ Vocab.eos_token v →
  Vocab.eos_token v ∉ T →
  (length T + 2 ≤ Vocab.max_caption_length v)%nat →
  ∃ vec, Vocab.encode_caption v T = Ok vec ∧
    Vocab.decode_caption v [vec] join_words =
      Ok [caption_of join_words
            (filter (λ t, is_Some (dict_get (Vocab.stoi v) t)
                          ∧ t ∉ Vocab.specials v) T)].
Proof.
  intros H Hok Hbe Hue HT Hlen.
  pose proof (init_stoi_itos _ _ _ _ _ _ _ _ _ _ _ _ H Hok) as Hinv.
  destruct (init_index_of _ _ _ _ _ _ _ _ _ _ _ _ H) as [Hib Hie].
  apply init_Ok in H as (_ & _ & _ & _ & Hsp & _ & Hb & He & Hu & _).
  pose proof (Hinv _ _ Hb) as Hb'. pose proof (Hinv _ _ He) as He'.
  pose proof (Hinv _ _ Hu) as Hu'.
  exists (encoding v T). rewrite encode_caption_eq, decide_True by done.
  split; [done|]. unfold encoding. rewrite Hib, Hie.
  set (pads := replicate _ _).
  set (shown := λ t, if dict_get (Vocab.stoi v) t is Some _ then t
                     else Vocab.unk_token v).
  assert (tokens_of v (Vocab.index_of v <$> T) (shown <$> T)) as Htoks.
  { apply Forall2_fmap, Forall_Forall2_diag, Forall_forall. intros t _.
    unfold Vocab.index_of, shown.
    destruct (dict_get (Vocab.stoi v) t) as [i|] eqn:E; [by apply Hinv | done]. }
  assert (Vocab.eos_idx v ∉ Vocab.index_of v <$> T) as Hno.
  { intros (t & Ht & Hin)%list_elem_of_fmap. unfold Vocab.index_of in Ht.
    destruct (dict_get (Vocab.stoi v) t) as [i|] eqn:E.
    - subst i. apply Hinv in E. rewrite He' in E. injection E as <-. done.
    - rewrite Ht, Hu' in He'. by injection He'. }
  assert (filter (λ t, t ∉ Vocab.specials v) (shown <$> T)
    = filter (λ t, is_Some (dict_get (Vocab.stoi v) t) ∧ t ∉ Vocab.specials v) T)
    as Hfilter.
  { clear -Hsp. induction T as [|t T IH]; [done|].
    rewrite fmap_cons, !filter_cons, IH.
    destruct (dict_get (Vocab.stoi v) t) as [i|] eqn:E.
    - assert (shown t = t) as -> by (unfold shown; by rewrite E).
      destruct (decide (t ∉ Vocab.specials v)).
      + by rewrite decide_True by eauto.
      + by rewrite decide_False by tauto.
    - assert (shown t = Vocab.unk_token v) as -> by (unfold shown; by rewrite E).
      rewrite decide_False.
      + rewrite decide_False; [done|]. intros [[? ?] _]. done.
      + intros Hn. apply Hn. rewrite Hsp. do 3 right. left. }
  simpl. unfold Vocab.decode_row.
  change (Vocab.bos_idx v :: (Vocab.index_of v <$> T) ++ Vocab.eos_idx v :: pads)
    with ((Vocab.bos_idx v :: (Vocab.index_of v <$> T))
            ++ Vocab.eos_idx v :: pads).
  rewrite (decode_words_stop v _ (Vocab.bos_token v :: (shown <$> T))
             (Vocab.eos_token v)).
  - simpl. rewrite filter_cons, decide_False, filter_app, Hfilter; last first.
    { intros Hn. apply Hn. rewrite Hsp. right. left. }
    rewrite filter_cons, decide_False, filter_nil, app_nil_r; last first.
    { intros Hn. apply Hn. rewrite Hsp. do 2 right. left. }
    done.
  - by constructor.
  - apply not_elem_of_cons. split; [|done]. intros E.
    apply Hbe. rewrite E, Hb' in He'. by injection He'.
  - done.
Qed.
End construction_more.

(** ** The order of the annotation files and of their captions *)

Lemma str_lt_asym a b : str_lt a b → str_lt b a → False.
Proof.
  intros [Hab Hne] [Hba _]. apply Hne. by apply str_leb_antisym.
Qed.

Lemma pair_order_asym a b : pair_order a b → pair_order b a → False.
Proof.
  intros [Hab|[Eab Hab]] [Hba|[Eba Hba]]; try lia.
  by apply (str_lt_asym a.1 b.1).
Qed.

(** A list has one arrangement that an asymmetric order sorts. *)
Lemma sorted_perm_eq {A} (R : A → A → Prop) (l1 : list A) : ∀ l2,
  (∀ x y, R x y → R y x → False) →
  StronglySorted R l1 → StronglySorted R l2 → l1 ≡ₚ l2 → l1 = l2.
Proof.
  induction l1 as [|x1 l1 IH]; intros l2 Hasym H1 H2 Hperm.
  - by apply Permutation_nil_l in Hperm.
  - destruct l2 as [|x2 l2]; [by apply Permutation_nil_r in Hperm|].
    apply StronglySorted_inv in H1 as [H1 Hx1].
    apply StronglySorted_inv in H2 as [H2 Hx2].
    rewrite Forall_forall in Hx1, Hx2.
    assert (x1 = x2) as ->.
    { assert (x1 ∈ x2 :: l2) as Hin1 by (rewrite <- Hperm; left).
      assert (x2 ∈ x1 :: l1) as Hin2 by (rewrite Hperm; left).
      apply elem_of_cons in Hin1 as [?|Hin1]; [done|].
      apply elem_of_cons in Hin2 as [?|Hin2]; [done|].
      destruct (Hasym x1 x2); [apply Hx1, Hin2 | apply Hx2, Hin1]. }
    f_equal. apply IH; [done..|]. by apply Permutation_cons_inv in Hperm.
Qed.

Lemma words_and_frequencies_perm_eq (c1 c2 : Counter) :
  dict_wf c1 → dict_wf c2 → c1 ≡ₚ c2 →
  Vocab.words_and_frequencies c1 = Vocab.words_and_frequencies c2.
Proof.
  intros H1 H2 Hperm. apply (sorted_perm_eq pair_order).
  - apply pair_order_asym.
  - by apply words_and_frequencies_sorted.
  - by apply words_and_frequencies_sorted.
  - by rewrite !words_and_frequencies_perm.
Qed.

Lemma concat_perm {A} (l l' : list (list A)) :
  l ≡ₚ l' → concat l ≡ₚ concat l'.
Proof.
  induction 1 as [|x l l' _ IH|x y l|l l' l'' _ IH1 _ IH2]; simpl.
  - done.
  - by rewrite IH.
  - by rewrite !app_assoc, (Permutation_app_comm x y).
  - by rewrite IH1.
Qed.

Lemma occurrences_perm t (l l' : list str) :
  l ≡ₚ l' → occurrences t l = occurrences t l'.
Proof. intros Hperm. unfold occurrences. by rewrite Hperm. Qed.

Lemma Counter_update_perm (toks toks' : list str) :
  toks ≡ₚ toks' → Counter_update [] toks ≡ₚ Counter_update [] toks'.
Proof.
  intros Hperm.
  assert (∀ l, dict_wf (Counter_update [] l)) as Hwf.
  { intros l. apply Counter_update_wf, NoDup_nil_2. }
  apply NoDup_Permutation.
  - eapply NoDup_fmap_1, Hwf.
  - eapply NoDup_fmap_1, Hwf.
  - intros [t f]. split; intros Hin.
    + apply dict_get_Some_elem, Counter_update_lookup.
      apply (dict_get_elem _ _ _ (Hwf toks)), Counter_update_lookup in Hin
        as [Hin ->].
      split; [by rewrite <- Hperm | by apply occurrences_perm].
    + apply dict_get_Some_elem, Counter_update_lookup.
      apply (dict_get_elem _ _ _ (Hwf toks')), Counter_update_lookup in Hin
        as [Hin ->].
      split; [by rewrite Hperm | by apply occurrences_perm].
Qed.

Lemma dict_eqb_perm {K V} `{EqDecision K, EqDecision V} (d1 d2 : dict K V) :
  dict_wf d2 → d1 ≡ₚ d2 → dict_eqb d1 d2 = true.
Proof.
  intros Hwf Hperm. unfold dict_eqb. apply andb_true_intro. split.
  - apply bool_decide_eq_true. by rewrite Hperm.
  - apply forallb_forall. intros [k v] Hin. apply bool_decide_eq_true.
    apply dict_get_elem; [done|]. rewrite <- Hperm. by apply list_elem_of_In.
Qed.

Section order.
Variable preprocess_caption : str → option str → list str.
Variable from_pretrained : str → result TokenEncoder.t.

Abbreviation init := (Vocab.__init__ preprocess_caption from_pretrained).

Lemma make_vocab_perm tokenizer json_dirs json_dirs' :
  concat json_dirs ≡ₚ concat json_dirs' →
  (Vocab.make_vocab preprocess_caption tokenizer json_dirs).1
    ≡ₚ (Vocab.make_vocab preprocess_caption tokenizer json_dirs').1 ∧
  (Vocab.make_vocab preprocess_caption tokenizer json_dirs).2
    = (Vocab.make_vocab preprocess_caption tokenizer json_dirs').2.
Proof.
  intros Hperm.
  assert (captions preprocess_caption tokenizer json_dirs
            ≡ₚ captions preprocess_caption tokenizer json_dirs') as Hc.
  { unfold captions. by rewrite Hperm. }
  split.
  - rewrite !make_vocab_freqs. by apply Counter_update_perm, concat_perm.
  - rewrite !make_vocab_longest. unfold longest. by rewrite Hc.
Qed.

(** X10: without a pretrained model, the vocabulary does not depend on
    the order of the annotation files or of the captions in them: the
    same captions in another order give the same [itos], [stoi], special
    indices and [max_caption_length], the same frequencies, and an
    instance that [__eq__] finds equal. *)
Theorem construction_order_independent
    json_dirs json_dirs' max_size min_freq bos eos pad unk tokenizer v v' :
  concat json_dirs ≡ₚ concat json_dirs' →
  init json_dirs max_size min_freq bos eos pad None unk tokenizer = Ok v →
  init json_dirs' max_size min_freq bos eos pad None unk tokenizer = Ok v' →
  Vocab.itos v = Vocab.itos v' ∧ Vocab.stoi v = Vocab.stoi v' ∧
  Vocab.max_caption_length v = Vocab.max_caption_length v' ∧
  (Vocab.padding_idx v, Vocab.bos_idx v, Vocab.eos_idx v, Vocab.unk_idx v)
    = (Vocab.padding_idx v', Vocab.bos_idx v', Vocab.eos_idx v', Vocab.unk_idx v') ∧
  Vocab.freqs v ≡ₚ Vocab.freqs v' ∧
  Vocab.__eq__ v v' = true.
Proof.
  intros Hperm H H'.
  destruct (make_vocab_perm tokenizer _ _ Hperm) as [Hfreqs Hmax].
  apply init_Ok in H as (_ & _ & Ef & Em & _ & Hp & Hb & He & Hu
    & Ep & Eb & Ee & Eu & Hitos & Hstoi).
  apply init_Ok in H' as (_ & _ & Ef' & Em' & _ & Hp' & Hb' & He' & Hu'
    & Ep' & Eb' & Ee' & Eu' & Hitos' & Hstoi').
  assert (Vocab.itos v = Vocab.itos v') as Eitos.
  { rewrite Hitos, Hitos'. unfold itos_list.
    by rewrite (words_and_frequencies_perm_eq _ _
      (make_vocab_wf _ _ _) (make_vocab_wf _ _ _) Hfreqs). }
  assert (Vocab.stoi v = Vocab.stoi v') as Estoi by (by rewrite Hstoi, Hstoi', Eitos).
  rewrite Ep, Estoi, <- Ep', Hp' in Hp. rewrite Eb, Estoi, <- Eb', Hb' in Hb.
  rewrite Ee, Estoi, <- Ee', He' in He. rewrite Eu, Estoi, <- Eu', Hu' in Hu.
  injection Hp as Hp. injection Hb as Hb. injection He as He. injection Hu as Hu.
  split_and!; [done | done | congruence | congruence | by rewrite Ef, Ef' |].
  unfold Vocab.__eq__.
  rewrite (dict_eqb_perm (Vocab.freqs v) (Vocab.freqs v')); last first.
  { by rewrite Ef, Ef'. } { rewrite Ef'. apply make_vocab_wf. }
  rewrite <- Estoi, <- Eitos.
  rewrite (dict_eqb_perm (Vocab.stoi v) (Vocab.stoi v)); last first.
  { done. } { rewrite Hstoi. apply dict_of_items_wf. }
  rewrite (dict_eqb_perm (Vocab.itos v) (Vocab.itos v)); last first.
  { done. } { rewrite Hitos. apply dict_of_items_wf. }
  done.
Qed.
End order.

(** ** decode_caption, further *)

Lemma decode_words_from self vec : ∀ words out,
  Vocab.decode_words self words vec = Ok out →
  ∃ more, out = words ++ more ∧
    Forall (λ w, (w ∉ Vocab.specials self) ∧
                 ∃ idx, idx ∈ vec ∧ dict_get (Vocab.itos self) idx = Some w) more.
Proof.
  induction vec as [|idx vec IH]; intros words out; simpl.
  - intros E. injection E as <-. exists []. by rewrite app_nil_r.
  - unfold dict_getitem. destruct (dict_get (Vocab.itos self) idx) as [tok|] eqn:Etok;
      simpl; [|discriminate].
    assert (∀ more, Forall (λ w, (w ∉ Vocab.specials self) ∧ ∃ idx0, idx0 ∈ vec
        ∧ dict_get (Vocab.itos self) idx0 = Some w) more →
      Forall (λ w, (w ∉ Vocab.specials self) ∧ ∃ idx0, idx0 ∈ idx :: vec
        ∧ dict_get (Vocab.itos self) idx0 = Some w) more) as Hweak.
    { intros more Hm. eapply Forall_impl; [exact Hm|].
      intros w (? & idx0 & ? & ?).
      split; [done|]. exists idx0. split; [by right | done]. }
    destruct (decide (tok ∉ Vocab.specials self)) as [Hsp|Hsp];
      [rewrite (bool_decide_eq_true_2 (_ ∉ _)) by done
      |rewrite (bool_decide_eq_false_2 (_ ∉ _)) by done];
      (destruct (decide (idx = Vocab.eos_idx self)) as [Heos|Heos];
        [rewrite (bool_decide_eq_true_2 (_ = _)) by done
        |rewrite (bool_decide_eq_false_2 (_ = _)) by done]).
    + intros E. injection E as <-. exists [tok]. split; [done|].
      constructor; [|constructor]. split; [done|]. exists idx. split; [left | done].
    + intros E. apply IH in E as (more & -> & Hmore). exists (tok :: more).
      rewrite <- app_assoc. split; [done|]. constructor; [|by apply Hweak].
      split; [done|]. exists idx. split; [left | done].
    + intros E. injection E as <-. exists []. by rewrite app_nil_r.
    + intros E. apply IH in E as (more & -> & Hmore). exists more.
      split; [done | by apply Hweak].
Qed.

Lemma mapM_result_Ok {A B} (f : A → result B) l k :
  mapM f l = Ok k → Forall2 (λ x y, f x = Ok y) l k.
Proof.
  revert k. induction l as [|x l IH]; intros k; simpl.
  - intros E. injection E as <-. constructor.
  - destruct (f x) as [y|e] eqn:Ey; simpl; [|discriminate].
    destruct (mapM f l) as [k'|e] eqn:Ek; simpl; [|discriminate].
    intros E. injection E as <-. constructor; [done | by apply IH].
Qed.

Lemma mapM_result_Raise {A B} (f : A → result B) l1 x l2 k e :
  Forall2 (λ x y, f x = Ok y) l1 k → f x = Raise e →
  mapM f (l1 ++ x :: l2) = Raise e.
Proof.
  induction 1 as [|x1 y1 l1 k Hxy _ IH]; intros Hx; simpl.
  - by rewrite Hx.
  - by rewrite Hxy, IH.
Qed.

(** X11: a decoded caption holds no special token: the words that
    [decode_caption] joins for a row are tokens [itos[idx]] of indices of
    the row, none of them one of the four specials. *)
Theorem decoded_words_not_special self join_words vec cap :
  Vocab.decode_row self join_words vec = Ok cap →
  ∃ words, cap = caption_of join_words words ∧
    Forall (λ w, (w ∉ Vocab.specials self) ∧
                 ∃ idx, idx ∈ vec ∧ dict_get (Vocab.itos self) idx = Some w)
      words.
Proof.
  unfold Vocab.decode_row. intros E.
  destruct (Vocab.decode_words self [] vec) as [words|e] eqn:Ew; [|discriminate].
  simpl in E. injection E as <-. exists words. split; [done|].
  by apply decode_words_from in Ew as (more & -> & Hmore).
Qed.

(** X12: the walk over a row ends at the first eos index: the indices
    after it are not read (they need not even be indices of [itos]) and
    leave the caption unchanged. *)
Theorem decode_stops_at_eos self pre toks e suf join_words :
  tokens_of self pre toks →
  Vocab.eos_idx self ∉ pre →
  dict_get (Vocab.itos self) (Vocab.eos_idx self) = Some e →
  Vocab.decode_row self join_words (pre ++ Vocab.eos_idx self :: suf) =
    Vocab.decode_row self join_words (pre ++ [Vocab.eos_idx self]) ∧
  Vocab.decode_row self join_words (pre ++ Vocab.eos_idx self :: suf) =
    Ok (caption_of join_words
          (filter (λ t, t ∉ Vocab.specials self) (toks ++ [e]))).
Proof.
  intros Htoks Heos He. unfold Vocab.decode_row.
  rewrite !(decode_words_stop self pre toks e) by done. done.
Qed.

(** X13: an index that is no key of [itos], met before any eos index,
    makes [decode_caption] raise [KeyError] for the whole batch, the rows
    before it having been decoded. *)
Theorem decode_unknown_index self rows caps pre toks idx suf rows' join_words :
  Forall2 (λ row cap, Vocab.decode_row self join_words row = Ok cap) rows caps →
  tokens_of self pre toks →
  Vocab.eos_idx self ∉ pre →
  dict_get (Vocab.itos self) idx = None →
  Vocab.decode_caption self (rows ++ (pre ++ idx :: suf) :: rows') join_words
    = Raise KeyError.
Proof.
  intros Hrows Htoks Heos Hidx. unfold Vocab.decode_caption.
  apply (mapM_result_Raise _ _ _ _ caps); [done|].
  unfold Vocab.decode_row.
  enough (∀ words, Vocab.decode_words self words (pre ++ idx :: suf)
    = Raise KeyError) as -> by done.
  induction Htoks as [|i tok pre toks Htok _ IH]; intros words; simpl.
  - unfold dict_getitem. by rewrite Hidx.
  - apply not_elem_of_cons in Heos as [Hne Heos].
    unfold dict_getitem. rewrite Htok. simpl.
    rewrite (bool_decide_eq_false_2 (_ = _)) by done. by apply IH.
Qed.

(** X14: [decode_caption] returns one caption for each row of the batch,
    in the order of the rows, each the decoding of its row alone. *)
Theorem decode_caption_rows self rows join_words caps :
  Vocab.decode_caption self rows join_words = Ok caps →
  length caps = length rows ∧
  ∀ i row, rows !! i = Some row →
    ∃ cap, caps !! i = Some cap ∧ Vocab.decode_row self join_words row = Ok cap.
Proof.
  intros E. apply mapM_result_Ok in E. split.
  - symmetry. by eapply Forall2_length.
  - intros i row Hrow.
    destruct (Forall2_lookup_l _ _ _ _ _ E Hrow) as (cap & Hcap & Hdec). eauto.
Qed.

(** ** load_vectors *)

Lemma resolve_vectors_accepted aliases vectors :
  Forall (vector_accepted aliases) vectors →
  ∃ vs, Vocab.resolve_vectors aliases vectors = Returns vs ∧
        length vs = length vectors.
Proof.
  induction 1 as [|vector vectors Hv _ (vs & IH & Hlen)]; simpl; [by exists []|].
  destruct vector as [name|v|]; simpl in Hv; [destruct Hv as [v Hv]| |done].
  - rewrite Hv, IH. simpl. exists (v :: vs). by rewrite <- Hlen.
  - rewrite IH. simpl. exists (v :: vs). by rewrite <- Hlen.
Qed.

Lemma fill_rows_first token tokens v vs tot_dim :
  Vocab.fill_rows (token :: tokens) (v :: vs) tot_dim
    = Fails (Raised AttributeError).
Proof. done. Qed.

Lemma fill_rows_no_vectors tokens :
  Vocab.fill_rows tokens [] 0 = Returns ().
Proof. induction tokens as [|token tokens IH]; simpl; [done|]. by rewrite IH. Qed.

(** X15: an unknown name of pretrained vectors, or an entry that is
    neither a name nor a [Vectors] object, makes [load_vectors] raise
    [ValueError], the entries before it having been accepted; nothing is
    loaded. *)
Theorem load_vectors_refused aliases self pre vector suf :
  Forall (vector_accepted aliases) pre →
  vector_refused aliases vector →
  Vocab.load_vectors aliases self (Several (pre ++ vector :: suf))
    = Fails ValueError.
Proof.
  intros Hpre Hv. unfold Vocab.load_vectors.
  enough (Vocab.resolve_vectors aliases (pre ++ vector :: suf)
    = Fails ValueError) as -> by done.
  induction Hpre as [|x pre Hx _ IH]; simpl.
  - destruct vector as [name|v|]; simpl in Hv; [by rewrite Hv | done | done].
  - destruct x as [name|v|]; simpl in Hx; [destruct Hx as [v ->]| |done];
      simpl; by rewrite IH.
Qed.

(** X16: on a vocabulary with at least one entry, [load_vectors] with at
    least one vector source, every one accepted, raises [AttributeError]
    at the first key of [itos] (the key is an [int], and [token.strip()]
    is called on it); with the empty list it returns, and [self.vectors]
    has [len(self)] rows and no column. *)
Theorem load_vectors_accepted aliases self vectors :
  Vocab.itos self ≠ [] →
  Forall (vector_accepted aliases) (vectors_list vectors) →
  (vectors_list vectors ≠ [] →
     Vocab.load_vectors aliases self vectors = Fails (Raised AttributeError)) ∧
  (vectors_list vectors = [] →
     Vocab.load_vectors aliases self vectors = Returns (Vocab.__len__ self, 0%nat)).
Proof.
  intros Hitos Hacc. unfold Vocab.load_vectors. fold (vectors_list vectors).
  destruct (resolve_vectors_accepted aliases _ Hacc) as (vs & -> & Hlen).
  cbn [mbind outcome_bind]. split; intros Hvs.
  - destruct vs as [|v vs]; [by destruct (vectors_list vectors)|].
    unfold dict_keys. destruct (Vocab.itos self) as [|[token w] itos]; [done|].
    change (((token, w) :: itos).*1) with (token :: itos.*1).
    by rewrite fill_rows_first.
  - rewrite Hvs in Hlen. destruct vs; [|done]. simpl.
    by rewrite fill_rows_no_vectors.
Qed.

(** ** __eq__ *)

Section dict_eqb_facts.
Context {K V : Type} `{EqDecision K, EqDecision V}.
Implicit Types (d : dict K V).

Lemma dict_get_perm d1 d2 k :
  dict_wf d1 → dict_wf d2 → d1 ≡ₚ d2 → dict_get d1 k = dict_get d2 k.
Proof.
  intros H1 H2 Hperm. destruct (dict_get d1 k) as [v|] eqn:E.
  - symmetry. apply dict_get_elem; [done|]. rewrite <- Hperm.
    by apply dict_get_Some_elem.
  - symmetry. apply dict_get_None. rewrite <- Hperm. by apply dict_get_None.
Qed.

Lemma dict_items_NoDup d : dict_wf d → NoDup d.
Proof. apply NoDup_fmap_1. Qed.

(** [d1 == d2] says that the two dicts map every key alike. *)
Lemma dict_eqb_lookups d1 d2 :
  dict_wf d1 → dict_wf d2 →
  dict_eqb d1 d2 = true ↔ ∀ k, dict_get d1 k = dict_get d2 k.
Proof.
  intros H1 H2. split.
  - intros E k. unfold dict_eqb in E. apply andb_prop in E as [Elen Eall].
    apply bool_decide_eq_true in Elen. rewrite forallb_forall in Eall.
    apply dict_get_perm; [done..|].
    apply submseteq_length_Permutation; [|lia].
    apply NoDup_submseteq; [by apply dict_items_NoDup|].
    intros [k' v'] Hin. apply list_elem_of_In, Eall in Hin.
    apply bool_decide_eq_true in Hin. by apply dict_get_Some_elem.
  - intros Hget. apply dict_eqb_perm; [done|].
    apply NoDup_Permutation; [by apply dict_items_NoDup..|].
    intros [k v]. split; intros Hin.
    + apply dict_get_Some_elem. rewrite <- Hget. by apply dict_get_elem.
    + apply dict_get_Some_elem. rewrite Hget. by apply dict_get_elem.
Qed.
End dict_eqb_facts.

(** Counters without a count of 0 map every key alike when all their
    counts agree, a missing one counting 0. *)
Lemma Counter_lookups_counts (c1 c2 : Counter) :
  (∀ t f, dict_get c1 t = Some f → f ≠ 0) →
  (∀ t f, dict_get c2 t = Some f → f ≠ 0) →
  (∀ t, dict_get c1 t = dict_get c2 t) ↔
  (∀ t, Counter_getitem c1 t = Counter_getitem c2 t).
Proof.
  intros H1 H2. unfold Counter_getitem. split; intros E t.
  - by rewrite E.
  - specialize (E t).
    destruct (dict_get c1 t) as [f1|] eqn:E1, (dict_get c2 t) as [f2|] eqn:E2;
      simpl in E; [by subst | | | done].
    + by destruct (H1 t f1).
    + by destruct (H2 t f2).
Qed.

Section eq.
Variable preprocess_caption : str → option str → list str.
Variable from_pretrained : str → result TokenEncoder.t.

Abbreviation init := (Vocab.__init__ preprocess_caption from_pretrained).

Lemma init_wf json_dirs max_size min_freq bos eos pad plm unk tokenizer v :
  init json_dirs max_size min_freq bos eos pad plm unk tokenizer = Ok v →
  vocabulary_is_dict from_pretrained plm →
  dict_wf (Vocab.freqs v) ∧ dict_wf (Vocab.stoi v) ∧ dict_wf (Vocab.itos v) ∧
  ∀ t f, dict_get (Vocab.freqs v) t = Some f → f ≠ 0.
Proof.
  intros H Hok. pose proof (init_itos_wf _ _ _ _ _ _ _ _ _ _ _ _ H) as Hitos.
  apply init_Ok in H as (_ & _ & -> & _ & _ & _ & _ & _ & _ & H).
  split_and!; [apply make_vocab_wf | | done |].
  - destruct plm as [name|].
    + destruct H as (te & Hte & _ & _ & _ & _ & -> & _).
      exact (Hok name te eq_refl Hte).
    + destruct H as (_ & _ & _ & _ & _ & ->). apply dict_of_items_wf.
  - intros t f Hf. apply make_vocab_positive in Hf. lia.
Qed.

(** X17: [self == other] on two constructed vocabularies is [True]
    exactly when they agree on the count of every token, on [stoi[t]] for
    every token and on [itos[i]] for every index; the order of insertion,
    [max_caption_length] and the tokenizer name are not compared.  (The
    vocabulary of a pretrained tokenizer is a dict, a token being a key
    once.) *)
Theorem eq_compares_mappings
    json_dirs max_size min_freq bos eos pad plm unk tokenizer v
    json_dirs' max_size' min_freq' bos' eos' pad' plm' unk' tokenizer' w :
  init json_dirs max_size min_freq bos eos pad plm unk tokenizer = Ok v →
  init json_dirs' max_size' min_freq' bos' eos' pad' plm' unk' tokenizer' = Ok w →
  vocabulary_is_dict from_pretrained plm →
  vocabulary_is_dict from_pretrained plm' →
  Vocab.__eq__ v w = true ↔
    (∀ t, Counter_getitem (Vocab.freqs v) t = Counter_getitem (Vocab.freqs w) t) ∧
    (∀ t, dict_get (Vocab.stoi v) t = dict_get (Vocab.stoi w) t) ∧
    (∀ i, dict_get (Vocab.itos v) i = dict_get (Vocab.itos w) i).
Proof.
  intros Hv Hw Hok Hok'.
  destruct (init_wf _ _ _ _ _ _ _ _ _ _ Hv Hok) as (Hf & Hs & Hi & Hpos).
  destruct (init_wf _ _ _ _ _ _ _ _ _ _ Hw Hok') as (Hf' & Hs' & Hi' & Hpos').
  rewrite <- (Counter_lookups_counts _ _ Hpos Hpos').
  rewrite <- !dict_eqb_lookups by done. unfold Vocab.__eq__.
  destruct (dict_eqb (Vocab.freqs v) (Vocab.freqs w)),
    (dict_eqb (Vocab.stoi v) (Vocab.stoi w)),
    (dict_eqb (Vocab.itos v) (Vocab.itos w)); simpl; intuition congruence.
Qed.
End eq.

(** ** What encode_caption writes, decode_caption reads *)

Lemma decode_words_total self vec :
  Forall (λ idx, is_Some (dict_get (Vocab.itos self) idx)) vec →
  ∀ words, ∃ out, Vocab.decode_words self words vec = Ok out.
Proof.
  induction 1 as [|idx vec [tok Htok] _ IH]; intros words; simpl; [eauto|].
  unfold dict_getitem. rewrite Htok. simpl. case_bool_decide; eauto.
Qed.

Section valid_indices.
Variable preprocess_caption : str → option str → list str.
Variable from_pretrained : str → result TokenEncoder.t.

Abbreviation init := (Vocab.__init__ preprocess_caption from_pretrained).

(** Every index of [stoi] is an index of [itos]. *)
Lemma init_stoi_valid json_dirs max_size min_freq bos eos pad plm unk tokenizer v :
  init json_dirs max_size min_freq bos eos pad plm unk tokenizer = Ok v →
  ∀ t i, dict_get (Vocab.stoi v) t = Some i →
         is_Some (dict_get (Vocab.itos v) i).
Proof.
  intros H t i Hi. destruct plm as [name|].
  - apply init_Ok in H as (_ & _ & _ & _ & _ & _ & _ & _ & _ & H).
    destruct H as (te & _ & _ & _ & _ & _ & _ & ->).
    rewrite dict_get_is_Some, dict_of_items_keys, swap_keys.
    apply list_elem_of_fmap. exists (t, i). split; [done|].
    by apply dict_get_Some_elem.
  - assert (tokenizer_ok from_pretrained None) as Hok by (by intros ???).
    by rewrite (init_stoi_itos _ _ _ _ _ _ _ _ _ _ _ _ H Hok _ _ Hi).
Qed.

(** X18: every index that [encode_caption] writes is an index of [itos]
    (without a pretrained model: one of [0 .. len(self) - 1]), so that
    decoding an encoded caption raises no [KeyError]. *)
Theorem encoded_indices_valid
    json_dirs max_size min_freq bos eos pad plm unk tokenizer v T join_words :
  init json_dirs max_size min_freq bos eos pad plm unk tokenizer = Ok v →
  (length T + 2 ≤ Vocab.max_caption_length v)%nat →
  ∃ vec, Vocab.encode_caption v T = Ok vec ∧
    Forall (λ idx, is_Some (dict_get (Vocab.itos v) idx)) vec ∧
    (plm = None → Forall (λ idx, 0 ≤ idx < Z.of_nat (Vocab.__len__ v)) vec) ∧
    ∃ caps, Vocab.decode_caption v [vec] join_words = Ok caps.
Proof.
  intros H Hlen.
  pose proof (init_stoi_valid _ _ _ _ _ _ _ _ _ _ H) as Hinv.
  destruct (init_index_of _ _ _ _ _ _ _ _ _ _ _ _ H) as [Hib Hie].
  pose proof H as H'.
  apply init_Ok in H' as (_ & _ & _ & _ & _ & Hp & Hb & He & Hu & _).
  exists (encoding v T). rewrite encode_caption_eq, decide_True by done.
  assert (Forall (λ idx, is_Some (dict_get (Vocab.itos v) idx)) (encoding v T))
    as Hvalid.
  { unfold encoding. rewrite Hib, Hie. rewrite !Forall_app. split_and!.
    - constructor; [exact (Hinv _ _ Hb) | constructor].
    - apply Forall_fmap, Forall_forall. intros t _. simpl.
      unfold Vocab.index_of.
      destruct (dict_get (Vocab.stoi v) t) as [i|] eqn:E.
      + exact (Hinv _ _ E).
      + exact (Hinv _ _ Hu).
    - constructor; [exact (Hinv _ _ He) | constructor].
    - apply Forall_replicate. exact (Hinv _ _ Hp). }
  split_and!; [done | done | |].
  - intros ->. unfold Vocab.__len__.
    rewrite (init_itos_enumerate _ _ _ _ _ _ _ _ _ _ _ H) in Hvalid |- *.
    rewrite length_enumerate. eapply Forall_impl; [exact Hvalid|].
    intros idx. apply enumerate_is_Some.
  - destruct (decode_words_total v _ Hvalid []) as [out Hout].
    simpl. unfold Vocab.decode_row. rewrite Hout. simpl. eauto.
Qed.
End valid_indices.

(** ** The constructor, with its files and its vectors *)

Lemma mapM_Returns {A} (l : list A) :
  mapM (λ x : outcome A, x) (Returns <$> l) = Returns l.
Proof. induction l as [|x l IH]; cbn; [done|]. by rewrite IH. Qed.

Lemma mapM_Fails {A} (pre : list A) e suf :
  mapM (λ x : outcome A, x) ((Returns <$> pre) ++ Fails e :: suf) = Fails e.
Proof. induction pre as [|x l IH]; cbn; [done|]. by rewrite IH. Qed.

Lemma mapM_files_read (json_dirs : list json_data) :
  mapM (λ json_dir : outcome json_data, json_dir) (files_read json_dirs)
    = Returns json_dirs.
Proof. apply mapM_Returns. Qed.

Lemma mapM_file_fails (pre : list json_data) e suf :
  mapM (λ json_dir : outcome json_data, json_dir)
    (files_read pre ++ Fails e :: suf) = Fails e.
Proof. apply mapM_Fails. Qed.

Section new.
Variable aliases : dict str (result Vectors.t).
Variable preprocess_caption : str → option str → list str.
Variable from_pretrained : str → result TokenEncoder.t.

Abbreviation init := (Vocab.__init__ preprocess_caption from_pretrained).
Abbreviation new := (Vocab.new aliases preprocess_caption from_pretrained).

(** On files that are read and without vectors, the constructor is
    lines 44-96. *)
Lemma new_init json_dirs min_freq bos eos pad plm unk tokenizer :
  new (files_read json_dirs) None min_freq bos eos pad plm unk None tokenizer
    = v ← Vocab.raised (init json_dirs None min_freq bos eos pad plm unk tokenizer);
      Returns (v, None).
Proof.
  unfold Vocab.new. rewrite mapM_files_read. done.
Qed.

Lemma new_init_vectors json_dirs min_freq bos eos pad plm unk vectors tokenizer v :
  init json_dirs None min_freq bos eos pad plm unk tokenizer = Ok v →
  new (files_read json_dirs) None min_freq bos eos pad plm unk (Some vectors)
      tokenizer
    = shape ← Vocab.load_vectors aliases v vectors; Returns (v, Some shape).
Proof.
  intros H. unfold Vocab.new. rewrite mapM_files_read.
  cbn [mbind outcome_bind]. rewrite H. done.
Qed.

(** X19: without [max_size], without a pretrained model and without
    vectors, construction returns a vocabulary when every annotation file
    is read, whatever the captions, the threshold and the names of the
    special tokens: the four lookups of lines 91-94 find their keys.
    When a file cannot be read, the files before it having been read,
    its exception ends the construction, pretrained model and vectors or
    not. *)
Theorem new_returns json_dirs min_freq bos eos pad unk tokenizer :
  (∃ v, Vocab.new aliases preprocess_caption from_pretrained
          (files_read json_dirs) None min_freq bos eos pad None unk None
          tokenizer = Returns (v, None) ∧
        Vocab.__init__ preprocess_caption from_pretrained
          json_dirs None min_freq bos eos pad None unk tokenizer = Ok v) ∧
  (∀ e suf plm vectors,
     Vocab.new aliases preprocess_caption from_pretrained
       (files_read json_dirs ++ Fails e :: suf) None min_freq bos eos pad plm
       unk vectors tokenizer = Fails e).
Proof.
  split.
  - destruct (init_returns preprocess_caption from_pretrained json_dirs
      min_freq bos eos pad unk tokenizer) as [v Hv].
    exists v. split; [|done]. by rewrite new_init, Hv.
  - intros e suf plm vectors. unfold Vocab.new.
    by rewrite mapM_file_fails.
Qed.

(** X7: with a pretrained model, no [max_size], no vectors and annotation
    files that are read, construction returns when the tokenizer's four
    special tokens are keys of its vocabulary; when one of them is [None]
    or is no key, the constructor raises [KeyError], whatever vectors are
    asked for. *)
Theorem new_pretrained_outcome
    json_dirs min_freq bos eos pad name unk tokenizer te :
  from_pretrained name = Ok te →
  (Forall (token_present (TokenEncoder.get_vocab te)) (special_tokens te) →
   ∃ v, Vocab.new aliases preprocess_caption from_pretrained
          (files_read json_dirs) None min_freq bos eos pad (Some name) unk None
          tokenizer = Returns (v, None)) ∧
  (¬ Forall (token_present (TokenEncoder.get_vocab te)) (special_tokens te) →
   ∀ vectors,
     Vocab.new aliases preprocess_caption from_pretrained
       (files_read json_dirs) None min_freq bos eos pad (Some name) unk vectors
       tokenizer = Fails (Raised KeyError)).
Proof.
  intros Hte.
  destruct (init_pretrained_cases preprocess_caption from_pretrained
    json_dirs min_freq bos eos pad name unk tokenizer te Hte)
    as [[HF [v Hv]]|[HF Hr]]; split; intros HF'; try done.
  - exists v. by rewrite new_init, Hv.
  - intros vectors. unfold Vocab.new. rewrite mapM_files_read.
    cbn [mbind outcome_bind]. by rewrite Hr.
Qed.

(** X20: a construction that returns without vectors raises
    [AttributeError] when it is given at least one vector source, every
    one accepted: line 198 calls [token.strip()] on the first key of
    [itos], an [int].  With the empty list it returns, [self.vectors]
    having [len(self)] rows and no column. *)
Theorem new_vectors_outcome
    json_dirs min_freq bos eos pad plm unk tokenizer v vectors :
  Vocab.new aliases preprocess_caption from_pretrained
    (files_read json_dirs) None min_freq bos eos pad plm unk None tokenizer
    = Returns (v, None) →
  Forall (vector_accepted aliases) (vectors_list vectors) →
  (vectors_list vectors ≠ [] →
     Vocab.new aliases preprocess_caption from_pretrained
       (files_read json_dirs) None min_freq bos eos pad plm unk (Some vectors)
       tokenizer = Fails (Raised AttributeError)) ∧
  (vectors_list vectors = [] →
     Vocab.new aliases preprocess_caption from_pretrained
       (files_read json_dirs) None min_freq bos eos pad plm unk (Some vectors)
       tokenizer = Returns (v, Some (Vocab.__len__ v, 0%nat))).
Proof.
  intros H Hacc. rewrite new_init in H.
  destruct (init json_dirs None min_freq bos eos pad plm unk tokenizer)
    as [v'|e] eqn:Hv; [|discriminate].
  injection H as ->.
  pose proof (init_itos_nonempty _ _ _ _ _ _ _ _ _ _ _ _ Hv) as Hitos.
  rewrite (new_init_vectors _ _ _ _ _ _ _ _ _ _ Hv).
  unfold Vocab.load_vectors. fold (vectors_list vectors).
  destruct (resolve_vectors_accepted aliases _ Hacc) as (vs & -> & Hlen).
  cbn [mbind outcome_bind]. split; intros Hvs.
  - destruct vs as [|x vs]; [by destruct (vectors_list vectors)|].
    unfold dict_keys. destruct (Vocab.itos v) as [|[token w] itos]; [done|].
    change (((token, w) :: itos).*1) with (token :: itos.*1).
    by rewrite fill_rows_first.
  - rewrite Hvs in Hlen. destruct vs; [|done]. simpl.
    by rewrite fill_rows_no_vectors.
Qed.
End new.

(** ** The further properties at the scenario of the specification *)

Lemma max_caption_length_longest_dog_cat :
  ∃ v, dog_cat_vocab = Ok v ∧
    (∀ caption, caption ∈ captions whitespace_tokens None dog_cat →
       (length caption + 2 ≤ Vocab.max_caption_length v)%nat) ∧
    Vocab.max_caption_length v = 5%nat.
Proof.
  eexists. split; [vm_compute; reflexivity|].
  destruct (max_caption_length_longest whitespace_tokens no_model dog_cat None 1
    (lit "<bos>") (lit "<eos>") (lit "<pad>") None (lit "<unk>") None
    _ ltac:(vm_compute; reflexivity)) as (Hle & _ & _).
  split; [exact Hle | reflexivity].
Defined.

Lemma annotation_caption_encodes_dog_cat :
  ∃ v vec, dog_cat_vocab = Ok v ∧
    lit "a cat runs" ∈ concat dog_cat ∧
    Vocab.encode_caption v (whitespace_tokens (lit "a cat runs") None) = Ok vec ∧
    length vec = Vocab.max_caption_length v.
Proof.
  eexists.
  destruct (annotation_caption_encodes whitespace_tokens no_model dog_cat None 1
    (lit "<bos>") (lit "<eos>") (lit "<pad>") None (lit "<unk>") None
    _ (lit "a cat runs") ltac:(vm_compute; reflexivity) ltac:(by_evaluation))
    as (vec & Hvec & Hlen).
  exists vec. split_and!; [vm_compute; reflexivity | by_evaluation | done..].
Defined.

Lemma stoi_membership_frequent :
  ∃ v, frequent_vocab = Ok v ∧
    (is_Some (dict_get (Vocab.stoi v) (lit "runs")) ↔
     lit "runs" ∈ Vocab.specials v
     ∨ Z.max 2 1 ≤ Counter_getitem (Vocab.freqs v) (lit "runs")).
Proof.
  eexists. split; [vm_compute; reflexivity|].
  apply (stoi_membership whitespace_tokens no_model dog_cat None 2
    (lit "<bos>") (lit "<eos>") (lit "<pad>") (lit "<unk>") None).
  vm_compute; reflexivity.
Defined.

Lemma len_counts_frequent_dog_cat :
  ∃ v, frequent_vocab = Ok v ∧
    Vocab.__len__ v =
      (4 + length (filter (λ wf, (Z.max 2 1 ≤ wf.2)%Z) (Vocab.freqs v)))%nat ∧
    Vocab.__len__ v = 6%nat.
Proof.
  eexists. split; [vm_compute; reflexivity|]. split; [|reflexivity].
  apply (len_counts_frequent whitespace_tokens no_model dog_cat None 2
    (lit "<bos>") (lit "<eos>") (lit "<pad>") (lit "<unk>") None).
  vm_compute; reflexivity.
Defined.

Lemma itos_indices_contiguous_dog_cat :
  ∃ v, dog_cat_vocab = Ok v ∧
    (is_Some (dict_get (Vocab.itos v) 7) ↔ 0 ≤ 7 < Z.of_nat (Vocab.__len__ v)) ∧
    (is_Some (dict_get (Vocab.itos v) 8) ↔ 0 ≤ 8 < Z.of_nat (Vocab.__len__ v)).
Proof.
  eexists. split; [vm_compute; reflexivity|].
  split; apply (itos_indices_contiguous whitespace_tokens no_model dog_cat None 1
    (lit "<bos>") (lit "<eos>") (lit "<pad>") (lit "<unk>") None);
    vm_compute; reflexivity.
Defined.

Lemma special_indices_dog_cat :
  ∃ v, dog_cat_vocab = Ok v ∧
    NoDup (lit <$> ["<pad>"; "<bos>"; "<eos>"; "<unk>"]%string) ∧
    Vocab.padding_idx v = 0 ∧ Vocab.bos_idx v = 1 ∧
    Vocab.eos_idx v = 2 ∧ Vocab.unk_idx v = 3.
Proof.
  eexists. split; [vm_compute; reflexivity|]. split; [by_evaluation|].
  apply (special_indices whitespace_tokens no_model dog_cat None 1
    (lit "<bos>") (lit "<eos>") (lit "<pad>") (lit "<unk>") None).
  - vm_compute; reflexivity.
  - by_evaluation.
  - by_evaluation.
Defined.

Lemma new_pretrained_outcome_small :
  (∃ v, Vocab.new known_vectors whitespace_tokens small_model
          (files_read dog_cat) None 1 (lit "<bos>") (lit "<eos>") (lit "<pad>")
          (Some (lit "small")) (lit "<unk>") None None = Returns (v, None)) ∧
  Vocab.new known_vectors whitespace_tokens no_pad_model
    (files_read dog_cat) None 1 (lit "<bos>") (lit "<eos>") (lit "<pad>")
    (Some (lit "small")) (lit "<unk>")
    (Some (Single (Alias (lit "fasttext.vi.300d")))) None
    = Fails (Raised KeyError).
Proof.
  split.
  - apply (new_pretrained_outcome known_vectors whitespace_tokens small_model
      dog_cat 1 (lit "<bos>") (lit "<eos>") (lit "<pad>") (lit "small")
      (lit "<unk>") None small_encoder eq_refl).
    apply Forall_four. vm_compute. eauto 10.
  - apply (new_pretrained_outcome known_vectors whitespace_tokens no_pad_model
      dog_cat 1 (lit "<bos>") (lit "<eos>") (lit "<pad>") (lit "small")
      (lit "<unk>") None no_pad_encoder eq_refl).
    intros HF. apply Forall_four in HF as [HF _]. exact HF.
Defined.

Lemma freqs_positive_dog_cat :
  ∃ v, dog_cat_vocab = Ok v ∧
    dict_get (Vocab.freqs v) (lit "dog") = Some 1 ∧ 1 ≤ 1.
Proof.
  eexists. split; [vm_compute; reflexivity|]. split; [reflexivity|].
  eapply (freqs_positive whitespace_tokens no_model dog_cat None 1
    (lit "<bos>") (lit "<eos>") (lit "<pad>") None (lit "<unk>") None
    _ (lit "dog") 1); [vm_compute; reflexivity | vm_compute; reflexivity].
Defined.

Lemma decode_encode_keeps_known_dog_cat :
  ∃ v vec, dog_cat_vocab = Ok v ∧
    (lit "<eos>" ∉ lit <$> ["zebra"; "<pad>"; "cat"]%string) ∧
    Vocab.encode_caption v (lit <$> ["zebra"; "<pad>"; "cat"]%string) = Ok vec ∧
    Vocab.decode_caption v [vec] false = Ok [Vocab.Words [lit "cat"]].
Proof.
  eexists.
  destruct (decode_encode_keeps_known whitespace_tokens no_model dog_cat None 1
    (lit "<bos>") (lit "<eos>") (lit "<pad>") None (lit "<unk>") None
    _ (lit <$> ["zebra"; "<pad>"; "cat"]%string) false
    ltac:(vm_compute; reflexivity) no_model_ok)
    as (vec & Henc & Hdec).
  - by_evaluation.
  - by_evaluation.
  - by_evaluation.
  - vm_compute; lia.
  - exists vec. split_and!; [vm_compute; reflexivity | by_evaluation | done |].
    etrans; [exact Hdec | vm_compute; reflexivity].
Defined.

Lemma construction_order_independent_dog_cat :
  ∃ v v', dog_cat_vocab = Ok v ∧ cat_dog_vocab = Ok v' ∧
    concat dog_cat ≡ₚ concat cat_dog ∧
    Vocab.itos v = Vocab.itos v' ∧ Vocab.stoi v = Vocab.stoi v' ∧
    Vocab.freqs v ≡ₚ Vocab.freqs v' ∧ Vocab.__eq__ v v' = true.
Proof.
  eexists. eexists. split; [vm_compute; reflexivity|].
  split; [vm_compute; reflexivity|].
  assert (concat dog_cat ≡ₚ concat cat_dog) as Hperm by apply perm_swap.
  split; [exact Hperm|].
  destruct (construction_order_independent whitespace_tokens no_model
    dog_cat cat_dog None 1 (lit "<bos>") (lit "<eos>") (lit "<pad>")
    (lit "<unk>") None _ _ Hperm ltac:(vm_compute; reflexivity)
    ltac:(vm_compute; reflexivity)) as (Hi & Hs & _ & _ & Hf & He).
  done.
Defined.

Lemma decoded_words_not_special_dog_cat :
  ∃ v, dog_cat_vocab = Ok v ∧
    Vocab.decode_row v false [1; 4; 0; 7; 2]
      = Ok (Vocab.Words (lit <$> ["a"; "dog"]%string)) ∧
    ∃ words,
      Vocab.Words (lit <$> ["a"; "dog"]%string) = caption_of false words ∧
      Forall (λ w, w ∉ Vocab.specials v) words.
Proof.
  eexists. split; [vm_compute; reflexivity|]. split; [vm_compute; reflexivity|].
  lazymatch goal with
  | |- context [Vocab.specials ?v] =>
      destruct (decoded_words_not_special v false [1; 4; 0; 7; 2]
        (Vocab.Words [lit "a"; lit "dog"]) eq_refl)
        as (words & Hcap & Hwords)
  end.
  exists words. split; [done|].
  eapply Forall_impl; [exact Hwords|]. by intros w [? _].
Defined.

Lemma decode_stops_at_eos_dog_cat :
  ∃ v, dog_cat_vocab = Ok v ∧
    (Vocab.eos_idx v ∉ [1; 4; 7]) ∧
    Vocab.decode_row v true ([1; 4; 7] ++ Vocab.eos_idx v :: [99; 5])
      = Vocab.decode_row v true ([1; 4; 7] ++ [Vocab.eos_idx v]) ∧
    Vocab.decode_row v true ([1; 4; 7] ++ Vocab.eos_idx v :: [99; 5])
      = Ok (Vocab.Joined (lit "a dog")).
Proof.
  eexists. split; [vm_compute; reflexivity|]. split; [by_evaluation|].
  lazymatch goal with
  | |- context [Vocab.eos_idx ?v] =>
      destruct (decode_stops_at_eos v [1; 4; 7]
        [lit "<bos>"; lit "a"; lit "dog"] (lit "<eos>") [99; 5] true)
        as [Hsame Hcap]
  end.
  - repeat constructor.
  - by_evaluation.
  - reflexivity.
  - split; [exact Hsame|]. etrans; [exact Hcap | vm_compute; reflexivity].
Defined.

Lemma decode_unknown_index_dog_cat :
  ∃ v, dog_cat_vocab = Ok v ∧
    dict_get (Vocab.itos v) 99 = None ∧
    Vocab.decode_caption v ([[1; 4; 2]] ++ ([1] ++ 99 :: [2]) :: []) false
      = Raise KeyError.
Proof.
  eexists. split; [vm_compute; reflexivity|]. split; [reflexivity|].
  apply (decode_unknown_index _ [[1; 4; 2]] [Vocab.Words [lit "a"]]
    [1] [lit "<bos>"] 99 [2] [] false).
  - repeat constructor.
  - repeat constructor.
  - by_evaluation.
  - reflexivity.
Defined.

Lemma decode_caption_rows_dog_cat :
  ∃ v, dog_cat_vocab = Ok v ∧
    Vocab.decode_caption v [[1; 4; 2]; [0; 0]] false
      = Ok [Vocab.Words [lit "a"]; Vocab.Words []] ∧
    length [Vocab.Words [lit "a"]; Vocab.Words []] = length [[1; 4; 2]; [0; 0]] ∧
    ∃ cap, [Vocab.Words [lit "a"]; Vocab.Words []] !! 1%nat = Some cap ∧
           Vocab.decode_row v false [0; 0] = Ok cap.
Proof.
  eexists. split; [vm_compute; reflexivity|]. split; [vm_compute; reflexivity|].
  lazymatch goal with
  | |- context [Vocab.decode_row ?v _ _] =>
      destruct (decode_caption_rows v [[1; 4; 2]; [0; 0]] false
        [Vocab.Words [lit "a"]; Vocab.Words []] eq_refl) as [Hlen Hrows]
  end.
  split; [exact Hlen|]. exact (Hrows 1%nat [0; 0] eq_refl).
Defined.

Lemma load_vectors_refused_glove :
  ∃ v, dog_cat_vocab = Ok v ∧
    vector_refused known_vectors (Alias (lit "glove.6B.300d")) ∧
    Vocab.load_vectors known_vectors v
      (Several ([Alias (lit "fasttext.vi.300d")]
                ++ Alias (lit "glove.6B.300d") :: [])) = Fails ValueError.
Proof.
  eexists. split; [vm_compute; reflexivity|]. split; [reflexivity|].
  apply load_vectors_refused.
  - constructor; [|constructor]. by eexists.
  - reflexivity.
Defined.

Lemma load_vectors_accepted_dog_cat :
  ∃ v, dog_cat_vocab = Ok v ∧
    Vocab.load_vectors known_vectors v (Single (Alias (lit "fasttext.vi.300d")))
      = Fails (Raised AttributeError) ∧
    Vocab.load_vectors known_vectors v (Several [])
      = Returns (Vocab.__len__ v, 0%nat).
Proof.
  eexists. split; [vm_compute; reflexivity|]. split.
  - apply load_vectors_accepted; [discriminate | | discriminate].
    constructor; [|constructor]. by eexists.
  - apply load_vectors_accepted; [discriminate | constructor | reflexivity].
Defined.

Lemma eq_compares_mappings_dog_cat :
  ∃ v w, dog_cat_vocab = Ok v ∧ cat_dog_vocab = Ok w ∧
    (Vocab.__eq__ v w = true ↔
      (∀ t, Counter_getitem (Vocab.freqs v) t = Counter_getitem (Vocab.freqs w) t) ∧
      (∀ t, dict_get (Vocab.stoi v) t = dict_get (Vocab.stoi w) t) ∧
      (∀ i, dict_get (Vocab.itos v) i = dict_get (Vocab.itos w) i)).
Proof.
  eexists. eexists. split; [vm_compute; reflexivity|].
  split; [vm_compute; reflexivity|].
  apply (eq_compares_mappings whitespace_tokens no_model
    dog_cat None 1 (lit "<bos>") (lit "<eos>") (lit "<pad>") None (lit "<unk>")
    None _
    cat_dog None 1 (lit "<bos>") (lit "<eos>") (lit "<pad>") None (lit "<unk>")
    None _); [vm_compute; reflexivity.. | by intros ??? | by intros ???].
Defined.

Lemma encoded_indices_valid_dog_cat :
  ∃ v vec, dog_cat_vocab = Ok v ∧
    Vocab.encode_caption v (lit <$> ["a"; "zebra"]%string) = Ok vec ∧
    Forall (λ idx, is_Some (dict_get (Vocab.itos v) idx)) vec ∧
    Forall (λ idx, 0 ≤ idx < Z.of_nat (Vocab.__len__ v)) vec.
Proof.
  eexists.
  destruct (encoded_indices_valid whitespace_tokens no_model dog_cat None 1
    (lit "<bos>") (lit "<eos>") (lit "<pad>") None (lit "<unk>") None
    _ (lit <$> ["a"; "zebra"]%string) false
    ltac:(vm_compute; reflexivity) ltac:(vm_compute; lia))
    as (vec & Henc & Hvalid & Hrange & _).
  exists vec. split_and!; [vm_compute; reflexivity | done | done | by apply Hrange].
Defined.

Lemma new_returns_dog_cat :
  (∃ v, Vocab.new known_vectors whitespace_tokens no_model
          (files_read dog_cat) None 1 (lit "<bos>") (lit "<eos>") (lit "<pad>")
          None (lit "<unk>") None None = Returns (v, None) ∧
        dog_cat_vocab = Ok v) ∧
  Vocab.new known_vectors whitespace_tokens no_model
    dog_cat_missing None 1 (lit "<bos>") (lit "<eos>") (lit "<pad>")
    None (lit "<unk>") None None = Fails (Raised OSError).
Proof.
  destruct (new_returns known_vectors whitespace_tokens no_model dog_cat 1
    (lit "<bos>") (lit "<eos>") (lit "<pad>") (lit "<unk>") None)
    as [Hret Hfail].
  split; [exact Hret|]. exact (Hfail (Raised OSError) [] None None).
Defined.

Lemma new_vectors_outcome_dog_cat :
  ∃ v, dog_cat_vocab = Ok v ∧
    Vocab.new known_vectors whitespace_tokens no_model
      (files_read dog_cat) None 1 (lit "<bos>") (lit "<eos>") (lit "<pad>")
      None (lit "<unk>") (Some (Single (Alias (lit "fasttext.vi.300d")))) None
      = Fails (Raised AttributeError) ∧
    Vocab.new known_vectors whitespace_tokens no_model
      (files_read dog_cat) None 1 (lit "<bos>") (lit "<eos>") (lit "<pad>")
      None (lit "<unk>") (Some (Several [])) None
      = Returns (v, Some (8%nat, 0%nat)).
Proof.
  eexists. split; [vm_compute; reflexivity|].
  lazymatch goal with
  | |- context [Returns (?v, _)] =>
      destruct (new_vectors_outcome known_vectors whitespace_tokens no_model
        dog_cat 1 (lit "<bos>") (lit "<eos>") (lit "<pad>") None (lit "<unk>")
        None v (Single (Alias (lit "fasttext.vi.300d"))))
        as [Hfails _];
      [vm_compute; reflexivity | constructor; [by eexists | constructor] |];
      destruct (new_vectors_outcome known_vectors whitespace_tokens no_model
        dog_cat 1 (lit "<bos>") (lit "<eos>") (lit "<pad>") None (lit "<unk>")
        None v (Several []))
        as [_ Hreturns]; [vm_compute; reflexivity | constructor |]
  end.
  split; [by apply Hfails | by apply Hreturns].
Defined.
